(** * Line-following robot core: PID steering law, line detector, supervisor.

    Shallow embedding of core/pid_controller.py, core/line_detector.py,
    core/robot_controller.py and the parts of Engines.py the supervisor
    calls.  Python floats are modelled by exact rationals ([Q]); Python ints
    by [Z].  Logging calls have no effect on the modelled state and are
    omitted. *)

From Stdlib Require Import ZArith QArith Qabs Qround Qpower Lqa Lia List Bool.
From Stdlib Require Import NArith.
Import ListNotations.

Open Scope Q_scope.

(** ** Python built-ins used by the sources *)

Definition Qltb (a b : Q) : bool := negb (Qle_bool b a).

Definition Qeqb (a b : Q) : bool := Qeq_bool a b.

(** [max(a, b)]: the first argument is kept unless the second is strictly
    greater. *)
Definition py_max (a b : Q) : Q := if Qltb a b then b else a.

(** [min(a, b)]: the first argument is kept unless the second is strictly
    smaller. *)
Definition py_min (a b : Q) : Q := if Qltb b a then b else a.

(** [int(q)]: truncation toward zero. *)
Definition py_int (q : Q) : Z := Z.quot (Qnum q) (Zpos (Qden q)).

(** [max(lo, min(hi, v))], the clamp idiom of both pid_controller.py and
    Engines._clamp. *)
Definition clamp (v lo hi : Q) : Q := py_max lo (py_min hi v).

(** ** core/pid_controller.py *)

Module PID.

Record PIDController : Type := mkPID {
  kp : Q;
  ki : Q;
  kd : Q;
  dead_zone : Q;
  max_integral : Q;
  _integral : Q;
  _last_error : Q;
  _last_time : option Q
}.

(** [__init__] *)
Definition init (kp ki kd dead_zone max_integral : Q) : PIDController :=
  mkPID kp ki kd dead_zone max_integral 0 0 None.

Definition or_keep (new : option Q) (old : Q) : Q :=
  match new with Some v => v | None => old end.

(** [update_params]: every argument that is not [None] replaces the field. *)
Definition update_params (s : PIDController)
    (kp' ki' kd' dead_zone' max_integral' : option Q) : PIDController :=
  mkPID (or_keep kp' (kp s)) (or_keep ki' (ki s)) (or_keep kd' (kd s))
        (or_keep dead_zone' (dead_zone s))
        (or_keep max_integral' (max_integral s))
        (_integral s) (_last_error s) (_last_time s).

(** [reset] *)
Definition reset (s : PIDController) : PIDController :=
  mkPID (kp s) (ki s) (kd s) (dead_zone s) (max_integral s) 0 0 None.

(** The [dt] of a call whose [time.monotonic()] reading is [now]. *)
Definition first_dt : Q := 33 # 1000.
Definition min_dt : Q := 1 # 1000.

Definition elapsed (s : PIDController) (now : Q) : Q :=
  match _last_time s with
  | None => first_dt
  | Some t => py_max (now - t) min_dt
  end.

(** The body of [compute] after [dt] has been fixed. *)
Definition compute_with (s : PIDController) (now dt error : Q)
    : PIDController * Q :=
  let error := if Qltb (Qabs error) (dead_zone s) then 0 else error in
  let p := kp s * error in
  let integral := _integral s + error * dt in
  let integral := py_max (- max_integral s) (py_min (max_integral s) integral) in
  let i := ki s * integral in
  let derivative := (error - _last_error s) / dt in
  let d := kd s * derivative in
  let output := p + i + d in
  let output := py_max (-100) (py_min 100 output) in
  (mkPID (kp s) (ki s) (kd s) (dead_zone s) (max_integral s)
         integral error (Some now),
   output).

(** [compute]: [now] is the value [time.monotonic()] returns in the call. *)
Definition compute (s : PIDController) (now error : Q) : PIDController * Q :=
  compute_with s now (elapsed s now) error.

(** The calls a client can make, and the trace of [compute] results over a
    sequence of them. *)
Inductive call : Type :=
| CallCompute (now error : Q)
| CallUpdateParams (kp' ki' kd' dead_zone' max_integral' : option Q)
| CallReset.

Fixpoint run (s : PIDController) (cs : list call)
    : list (PIDController * Q) :=
  match cs with
  | [] => []
  | CallCompute now e :: cs' =>
      let r := compute s now e in r :: run (fst r) cs'
  | CallUpdateParams a b c d m :: cs' => run (update_params s a b c d m) cs'
  | CallReset :: cs' => run (reset s) cs'
  end.

(** The same trace with every [dt] chosen freely instead of read from the
    clock. *)
Fixpoint run_with (s : PIDController) (cs : list (Q * Q * Q))
    : list (PIDController * Q) :=
  match cs with
  | [] => []
  | (now, dt, e) :: cs' =>
      let r := compute_with s now dt e in r :: run_with (fst r) cs'
  end.

(** The anti-windup bound on the state a [compute] call leaves. *)
Definition integral_within (r : PIDController * Q) : Prop :=
  Qabs (_integral (fst r)) <= Qabs (max_integral (fst r)) /\
  (0 <= max_integral (fst r) ->
   - max_integral (fst r) <= _integral (fst r) <= max_integral (fst r)).

(** The range promised for the steering value a [compute] call returns. *)
Definition output_in_range (r : PIDController * Q) : Prop :=
  -100 <= snd r <= 100.

End PID.

(** ** core/line_detector.py *)

Module LineDetector.

(** What OpenCV reports about one external contour of the thresholded band:
    [cv2.contourArea(c)] and the raw moments [cv2.moments(c)]. *)
Record Contour : Type := mkContour {
  contourArea : Q;
  m00 : Q;
  m10 : Q;
  m01 : Q
}.

(** The fields of [LineDetector] that [_process] and [_best_contour] read or
    write after [cv2.findContours].  A frame is represented by the contours
    found in it; cropping, blur, threshold and margin masking happen inside
    OpenCV before that point, and the debug image is not modelled.  The
    continuity exponent is held by its integral value ([2] for 2 or 2.0);
    the evaluation of the score for any other exponent is a parameter of
    [Scoring.best_contour_by]. *)
Record Detector : Type := mkDetector {
  _rotation : Z;
  _continuity_power : Z;
  _max_memory : Z;
  _ra_threshold : Q;
  _ra_enabled : bool;
  _cx : Z;
  _error : Q;
  _line_lost : bool;
  _right_angle : bool;
  _prev_centers : list Z
}.

(** [__init__]: the published observation starts as "lost", the history
    empty, and [_cx = _width // 2]. *)
Definition init (width rotation continuity_power max_memory : Z)
    (ra_threshold : Q) (ra_enabled : bool) : Detector :=
  mkDetector rotation continuity_power max_memory ra_threshold ra_enabled
             (width / 2)%Z 0 true false [].

Definition get_error (d : Detector) : Q := _error d.
Definition is_line_lost (d : Detector) : bool := _line_lost d.
Definition is_right_angle (d : Detector) : bool := _right_angle d.

(** [update_settings(continuity_power=p)], the one hot-reloaded field that
    blob selection reads. *)
Definition update_continuity_power (d : Detector) (p : Z) : Detector :=
  mkDetector (_rotation d) p (_max_memory d) (_ra_threshold d)
             (_ra_enabled d) (_cx d) (_error d) (_line_lost d)
             (_right_angle d) (_prev_centers d).

(** [l[-1]] *)
Definition py_last (l : list Z) : option Z :=
  match rev l with
  | [] => None
  | x :: _ => Some x
  end.

(** [l[-n:]] *)
Definition py_last_n (n : nat) (l : list Z) : list Z :=
  skipn (length l - n) l.

(** [max(contours, key=cv2.contourArea)]: the first contour of largest area;
    [None] stands for the [ValueError] raised on an empty list. *)
Definition max_by_area (cs : list Contour) : option Contour :=
  match cs with
  | [] => None
  | c :: cs' =>
      Some (fold_left
              (fun best c' =>
                 if Qltb (contourArea best) (contourArea c') then c' else best)
              cs' c)
  end.

(** [int(M["m10"] / M["m00"])] *)
Definition centroid_x (c : Contour) : Z := py_int (m10 c / m00 c).

(** The exact value of [area / (dist ** self._continuity_power)] with
    [dist = abs(cx - last_cx) + 1], whenever Python evaluates it;
    [Scoring.py_score] has the exceptions of the evaluation. *)
Definition score (power : Z) (last_cx : Z) (c : Contour) : Q :=
  let cx := centroid_x c in
  let dist := (Z.abs (cx - last_cx) + 1)%Z in
  contourArea c / (inject_Z dist ^ power).

(** The [for c in contours] loop of [_best_contour], started with
    [best = None] and [best_score = -1]. *)
Fixpoint scan (power last_cx : Z) (cs : list Contour)
    (best : option Contour) (best_score : Q) : option Contour :=
  match cs with
  | [] => best
  | c :: cs' =>
      if Qltb (contourArea c) 100 then scan power last_cx cs' best best_score
      else if Qeqb (m00 c) 0 then scan power last_cx cs' best best_score
      else
        let s := score power last_cx c in
        if Qltb best_score s then scan power last_cx cs' (Some c) s
        else scan power last_cx cs' best best_score
  end.

(** [_best_contour] on the calls that return ([Scoring._best_contour] has
    those that raise, and agrees on the others). *)
Definition _best_contour (d : Detector) (contours : list Contour)
    : option Contour :=
  match py_last (_prev_centers d) with
  | None => max_by_area contours
  | Some last_cx =>
      match scan (_continuity_power d) last_cx contours None (-1) with
      | Some best => Some best
      | None => max_by_area contours
      end
  end.

(** The candidates the loop scores: [area >= 100] and [M["m00"] != 0]. *)
Definition eligible (c : Contour) : bool :=
  negb (Qltb (contourArea c) 100) && negb (Qeqb (m00 c) 0).

(** [valid = [c for c in contours if cv2.contourArea(c) > 50]] *)
Definition valid_contours (contours : list Contour) : list Contour :=
  filter (fun c => Qltb 50 (contourArea c)) contours.

(** The contour [_process] hands to [cv2.moments], when it gets that far. *)
Definition selected (d : Detector) (contours : list Contour)
    : option Contour :=
  match contours with
  | [] => None
  | _ :: _ =>
      match valid_contours contours with
      | [] => None
      | valid => _best_contour d valid
      end
  end.

(** Publication of a frame in which no blob was accepted: the locals keep
    their initial values and the history is cleared. *)
Definition publish_lost (d : Detector) : Detector :=
  mkDetector (_rotation d) (_continuity_power d) (_max_memory d)
             (_ra_threshold d) (_ra_enabled d) (_cx d) 0 true false [].

(** [self._prev_centers.append(cx_line)] followed by the bounded eviction. *)
Definition remember (d : Detector) (cx_line : Z) : list Z :=
  let prev := _prev_centers d ++ [cx_line] in
  if (Z.of_nat (length prev) >? _max_memory d)%Z then tl prev else prev.

(** The right-angle test on the history [prev] as it stands after the
    append. *)
Definition right_angle_test (d : Detector) (prev : list Z) : bool :=
  if _ra_enabled d && (3 <=? length prev)%nat then
    let recent := map (fun c => Z.abs (c - _cx d)) (py_last_n 3 prev) in
    forallb (fun e => Qltb (_ra_threshold d) (inject_Z e)) recent
  else false.

(** Publication of a frame whose selected blob [best] has [M["m00"] > 0]. *)
Definition publish_found (d : Detector) (best : Contour) : Detector :=
  let cx_line := centroid_x best in
  let raw_error := inject_Z (cx_line - _cx d) in
  let error := if (_rotation d =? 180)%Z then - raw_error else raw_error in
  let prev := remember d cx_line in
  mkDetector (_rotation d) (_continuity_power d) (_max_memory d)
             (_ra_threshold d) (_ra_enabled d) (_cx d)
             error false (right_angle_test d prev) prev.

(** [_process], from the contours of the frame onwards. *)
Definition _process (d : Detector) (contours : list Contour) : Detector :=
  match selected d contours with
  | Some best =>
      if Qltb 0 (m00 best) then publish_found d best else publish_lost d
  | None => publish_lost d
  end.

(** The detector states a reader can see: the initial one and the one left
    by each processed frame; hot reloads do not touch the observation. *)
Inductive published : Detector -> Prop :=
| published_init w r p m t e : published (init w r p m t e)
| published_frame d cs : published d -> published (_process d cs)
| published_settings d p :
    published d -> published (update_continuity_power d p).

(** Feeding a sequence of frames. *)
Definition process_all (d : Detector) (frames : list (list Contour))
    : Detector :=
  fold_left _process frames d.


End LineDetector.

(** ** Blob scoring as Python evaluates it *)

Module Scoring.
Import LineDetector.

(** What a call does: it returns a value or lets an exception out. *)
Inductive outcome (A : Type) : Type :=
| Returns (a : A)
| Raises.
Arguments Returns {A} a.
Arguments Raises {A}.

(** The range of a Python float: a value of at least [float_overflow] has no
    finite float, a positive value of at most [float_underflow] becomes
    0.0. *)
Definition float_overflow : Q := inject_Z (2 ^ 1024 - 2 ^ 970).
Definition float_underflow : Q := / inject_Z (2 ^ 1075).

(** [area / (dist ** self._continuity_power)] for an exponent of integral
    value (an [int], a [bool], or a [float] such as 2.0), rounding apart.
    [None] stands for the exception Python raises: [OverflowError] when the
    power leaves the float range ([dist ** 200.0], or the conversion of the
    integer [dist ** 200] for the division), [ZeroDivisionError] when the
    power underflows to 0.0. *)
Definition py_score (power last_cx : Z) (c : Contour) : option Q :=
  let cx := centroid_x c in
  let dist := (Z.abs (cx - last_cx) + 1)%Z in
  let x := inject_Z dist ^ power in
  if Qle_bool float_overflow x then None
  else if Qle_bool x float_underflow then None
  else Some (contourArea c / x).

(** The [for c in contours] loop of [_best_contour] for a score evaluation
    [sc] that may raise. *)
Fixpoint scan_by (sc : Contour -> option Q) (cs : list Contour)
    (best : option Contour) (best_score : Q) : outcome (option Contour) :=
  match cs with
  | [] => Returns best
  | c :: cs' =>
      if Qltb (contourArea c) 100 then scan_by sc cs' best best_score
      else if Qeqb (m00 c) 0 then scan_by sc cs' best best_score
      else
        match sc c with
        | None => Raises
        | Some s =>
            if Qltb best_score s then scan_by sc cs' (Some c) s
            else scan_by sc cs' best best_score
        end
  end.

(** [max(contours, key=cv2.contourArea)], which raises [ValueError] on an
    empty list. *)
Definition py_max_by_area (contours : list Contour) : outcome Contour :=
  match max_by_area contours with
  | Some best => Returns best
  | None => Raises
  end.

(** [_best_contour] over any evaluation [sc_at last_cx c] of the score
    expression, whatever the type of the exponent. *)
Definition best_contour_by (sc_at : Z -> Contour -> option Q)
    (prev_centers : list Z) (contours : list Contour) : outcome Contour :=
  match py_last prev_centers with
  | None => py_max_by_area contours
  | Some last_cx =>
      match scan_by (sc_at last_cx) contours None (-1) with
      | Raises => Raises
      | Returns (Some best) => Returns best
      | Returns None => py_max_by_area contours
      end
  end.

(** [_best_contour] with the exceptions of the score expression. *)
Definition _best_contour (d : Detector) (contours : list Contour)
    : outcome Contour :=
  best_contour_by (py_score (_continuity_power d)) (_prev_centers d) contours.

End Scoring.

(** ** Engines.py (the commands the supervisor issues) and
       core/robot_controller.py *)

Module Robot.

Inductive Mode : Type := idle | following | searching | right_angle | stopped.

(** [RobotState] *)
Record RobotState : Type := mkState {
  mode : Mode;
  error : Q;
  steering : Q;
  speed : Q;
  running : bool
}.

(** The configuration fields of [Engines] the control loop reads. *)
Record Engines : Type := mkEngines {
  base_speed : Q;
  max_speed : Q;
  min_speed : Q;
  min_turn_speed : Q;
  search_turn_speed : Q;
  right_angle_turn_speed : Q;
  right_angle_turn_time : Q;
  search_time : Q
}.

(** What the control thread does to the outside world, in order: wheel
    commands that reached [Engines.set_motors] and calls of [time.sleep]. *)
Inductive event : Type :=
| SetMotors (fl fr rl rr : Q)
| Sleep (seconds : Q).

(** [RobotController] together with the environment of its thread.
    [clock] is what [time.monotonic()] returns; it advances by [time.sleep]
    and between iterations, computation itself takes no time.  [faults]
    tells, call by call, whether the next [set_motors] raises (a GPIO error,
    a wheel missing from the mapping); past its end every call succeeds. *)
Record World : Type := mkWorld {
  _pid : PID.PIDController;
  _engines : Engines;
  _state : RobotState;
  _search_time : Q;
  _search_dir : Z;
  _search_start : option Q;
  _ra_enabled : bool;
  _running : bool;
  clock : Q;
  trace : list event;
  faults : list bool
}.

(** [RobotController.__init__], given the configuration values read and the
    environment at that moment. *)
Definition init (pid : PID.PIDController) (eng : Engines) (ra_enabled : bool)
    (now : Q) (faults : list bool) : World :=
  mkWorld pid eng (mkState idle 0 0 0 false) (search_time eng) 1 None
          ra_enabled false now [] faults.

(** *** A state monad with exceptions

    A Python statement either completes or raises; the mutations made
    before a raise persist. *)
Inductive result (A : Type) : Type :=
| Ok (a : A)
| Raised.
Arguments Ok {A} a.
Arguments Raised {A}.

Definition M (A : Type) : Type := World -> World * result A.

Definition ret {A} (a : A) : M A := fun w => (w, Ok a).

Definition bind {A B} (m : M A) (k : A -> M B) : M B :=
  fun w =>
    match m w with
    | (w', Ok a) => k a w'
    | (w', Raised) => (w', Raised)
    end.

(** [try: body / except Exception: handler] *)
Definition try_except (body handler : M unit) : M unit :=
  fun w =>
    match body w with
    | (w', Ok a) => (w', Ok a)
    | (w', Raised) => handler w'
    end.

Declare Scope robot_scope.
Delimit Scope robot_scope with robot.
Notation "x <- m ;; k" := (bind m (fun x => k))
  (at level 61, m at next level, right associativity) : robot_scope.
Notation "m ;; k" := (bind m (fun _ => k))
  (at level 61, right associativity) : robot_scope.
Open Scope robot_scope.

Definition get {A} (f : World -> A) : M A := fun w => (w, Ok (f w)).

Definition set_pid (p : PID.PIDController) : M unit :=
  fun w => (mkWorld p (_engines w) (_state w) (_search_time w)
                    (_search_dir w) (_search_start w) (_ra_enabled w)
                    (_running w) (clock w) (trace w) (faults w), Ok tt).

Definition set_state (s : RobotState) : M unit :=
  fun w => (mkWorld (_pid w) (_engines w) s (_search_time w)
                    (_search_dir w) (_search_start w) (_ra_enabled w)
                    (_running w) (clock w) (trace w) (faults w), Ok tt).

Definition set_search_dir (z : Z) : M unit :=
  fun w => (mkWorld (_pid w) (_engines w) (_state w) (_search_time w)
                    z (_search_start w) (_ra_enabled w)
                    (_running w) (clock w) (trace w) (faults w), Ok tt).

Definition set_search_start (t : option Q) : M unit :=
  fun w => (mkWorld (_pid w) (_engines w) (_state w) (_search_time w)
                    (_search_dir w) t (_ra_enabled w)
                    (_running w) (clock w) (trace w) (faults w), Ok tt).

(** [time.monotonic()] *)
Definition monotonic : M Q := get clock.

(** [time.sleep(seconds)]: a negative length raises [ValueError]. *)
Definition sleep (seconds : Q) : M unit :=
  fun w =>
    if Qltb seconds 0 then (w, Raised)
    else (mkWorld (_pid w) (_engines w) (_state w) (_search_time w)
                  (_search_dir w) (_search_start w) (_ra_enabled w)
                  (_running w) (clock w + seconds)
                  (trace w ++ [Sleep seconds]) (faults w), Ok tt).

(** Time passing outside the modelled calls. *)
Definition advance (seconds : Q) (w : World) : World :=
  mkWorld (_pid w) (_engines w) (_state w) (_search_time w)
          (_search_dir w) (_search_start w) (_ra_enabled w)
          (_running w) (clock w + seconds) (trace w) (faults w).

(** *** Engines *)

(** [Engines.set_motors]: the four wheel commands reach the drivers, or the
    call raises. *)
Definition set_motors (fl fr rl rr : Q) : M unit :=
  fun w =>
    let w' fs tr :=
      mkWorld (_pid w) (_engines w) (_state w) (_search_time w)
              (_search_dir w) (_search_start w) (_ra_enabled w)
              (_running w) (clock w) tr fs in
    match faults w with
    | true :: fs => (w' fs (trace w), Raised)
    | false :: fs => (w' fs (trace w ++ [SetMotors fl fr rl rr]), Ok tt)
    | [] => (w' [] (trace w ++ [SetMotors fl fr rl rr]), Ok tt)
    end.

Definition set_speed (left right : Q) : M unit :=
  set_motors left right left right.

Definition stop : M unit := set_motors 0 0 0 0.

(** [Engines.curve(speed=speed, steering=steering)] *)
Definition curve (speed steering : Q) : M unit :=
  eng <- get _engines ;;
  let speed := clamp speed (-100) 100 in
  let steering := clamp steering (-100) 100 in
  let left_speed :=
    clamp (speed + steering) (min_turn_speed eng) (max_speed eng) in
  let right_speed :=
    clamp (speed - steering) (min_turn_speed eng) (max_speed eng) in
  set_speed left_speed right_speed.

(** [Engines.turn_left(speed, duration)] with both arguments given. *)
Definition turn_left (speed duration : Q) : M unit :=
  let speed := clamp speed 0 100 in
  set_motors (- speed) speed (- speed) speed ;;
  sleep duration ;;
  stop.

Definition turn_right (speed duration : Q) : M unit :=
  let speed := clamp speed 0 100 in
  set_motors speed (- speed) speed (- speed) ;;
  sleep duration ;;
  stop.

Definition right_angle_left : M unit :=
  eng <- get _engines ;;
  turn_left (right_angle_turn_speed eng) (right_angle_turn_time eng).

Definition right_angle_right : M unit :=
  eng <- get _engines ;;
  turn_right (right_angle_turn_speed eng) (right_angle_turn_time eng).

(** *** RobotController *)

Definition pid_reset : M unit :=
  p <- get _pid ;; set_pid (PID.reset p).

Definition pid_compute (e : Q) : M Q :=
  p <- get _pid ;;
  now <- monotonic ;;
  let r := PID.compute p now e in
  set_pid (fst r) ;; ret (snd r).

(** [_adaptive_speed] *)
Definition _adaptive_speed (eng : Engines) (abs_steering : Q) : Q :=
  let factor := py_min (abs_steering / 100) 1 in
  let speed := max_speed eng - factor * (max_speed eng - min_speed eng) in
  py_max (min_speed eng) (py_min (max_speed eng) speed).

(** What the three getters of the detector return to one iteration of the
    loop; each is called at most once per iteration. *)
Record Reading : Type := mkReading {
  seen_right_angle : bool;
  seen_lost : bool;
  seen_error : Q
}.

(** The reading of an iteration during which the detector publishes
    nothing new. *)
Definition observe (d : LineDetector.Detector) : Reading :=
  mkReading (LineDetector.is_right_angle d) (LineDetector.is_line_lost d)
            (LineDetector.get_error d).

Definition mode_eqb (a b : Mode) : bool :=
  match a, b with
  | idle, idle | following, following | searching, searching
  | right_angle, right_angle | stopped, stopped => true
  | _, _ => false
  end.

Definition _handle_follow (r : Reading) : M unit :=
  set_search_start None ;;
  st <- get _state ;;
  (if negb (mode_eqb (mode st) following) then pid_reset else ret tt) ;;
  let error := seen_error r in
  steering <- pid_compute error ;;
  eng <- get _engines ;;
  let speed := _adaptive_speed eng (Qabs steering) in
  curve speed steering ;;
  (if negb (Qeqb error 0)
   then set_search_dir (if Qltb 0 error then 1 else -1)%Z
   else ret tt) ;;
  st <- get _state ;;
  set_state (mkState following error steering speed (running st)).

(** [_handle_search].  The clock moves only in [sleep] and between
    iterations, so on the call that starts the timer the two reads of
    [time.monotonic()] return the same instant and [elapsed] is 0 there; in
    the source the second read comes after [self._pid.reset()] and a log
    line, a few microseconds later. *)
Definition _handle_search (r : Reading) : M unit :=
  start <- get _search_start ;;
  (match start with
   | None => now <- monotonic ;; set_search_start (Some now) ;; pid_reset
   | Some _ => ret tt
   end) ;;
  now <- monotonic ;;
  start <- get _search_start ;;
  let elapsed := now - match start with Some t => t | None => now end in
  limit <- get _search_time ;;
  if Qltb limit elapsed then
    stop ;;
    st <- get _state ;;
    set_state (mkState stopped (error st) 0 0 (running st)) ;;
    sleep (1 # 2)
  else
    eng <- get _engines ;;
    dir <- get _search_dir ;;
    let speed := search_turn_speed eng in
    (if (0 <? dir)%Z then set_speed speed (- speed)
     else set_speed (- speed) speed) ;;
    st <- get _state ;;
    set_state (mkState searching (seen_error r) (inject_Z dir * speed) 0
                       (running st)).

Definition _handle_right_angle : M unit :=
  stop ;;
  sleep (1 # 10) ;;
  st <- get _state ;;
  set_state (mkState right_angle (error st) 0 0 (running st)) ;;
  dir <- get _search_dir ;;
  (if (0 <? dir)%Z then right_angle_right else right_angle_left) ;;
  pid_reset.

(** The [try] block of [_loop]. *)
Definition branch (r : Reading) : M unit :=
  ra_enabled <- get _ra_enabled ;;
  if seen_right_angle r && ra_enabled then _handle_right_angle
  else if seen_lost r then _handle_search r
  else _handle_follow r.

(** The [except Exception] block of [_loop]. *)
Definition on_exception : M unit :=
  stop ;; sleep (1 # 10).

(** One pass through the body of [while self._running]. *)
Definition iteration (r : Reading) : M unit :=
  try_except (branch r) on_exception.

(** [_loop] over the readings of successive iterations, each preceded by
    the time that passed since the previous one.  [Raised] means the
    exception left [_loop] and the control thread ended. *)
Fixpoint _loop (inputs : list (Q * Reading)) : M unit :=
  match inputs with
  | [] => ret tt
  | (wait, r) :: rest =>
      fun w =>
        if _running w then (iteration r ;; _loop rest) (advance wait w)
        else (w, Ok tt)
  end.

(** An operation that leaves the loop flag alone. *)
Definition keeps_running {A} (m : M A) : Prop :=
  forall w, _running (fst (m w)) = _running w.

(** The next wheel command will be accepted. *)
Definition next_ok (w : World) : bool :=
  match faults w with
  | true :: _ => false
  | _ => true
  end.

(** Which arm of the [if]/[elif]/[else] a reading selects. *)
Definition takes_right_angle (w : World) (r : Reading) : Prop :=
  seen_right_angle r && _ra_enabled w = true.

Definition takes_search (w : World) (r : Reading) : Prop :=
  seen_right_angle r && _ra_enabled w = false /\ seen_lost r = true.

Definition takes_follow (w : World) (r : Reading) : Prop :=
  seen_right_angle r && _ra_enabled w = false /\ seen_lost r = false.

(** [start()], after the camera has been started: the loop flag is raised
    and mode "following" is published. *)
Definition start (w : World) : World :=
  if _running w then w
  else
    mkWorld (_pid w) (_engines w)
            (mkState following (error (_state w)) (steering (_state w))
                     (speed (_state w)) true)
            (_search_time w) (_search_dir w) (_search_start w)
            (_ra_enabled w) true (clock w) (trace w) (faults w).

End Robot.

(** ** Mirror images of controller states *)

Module PIDMirror.
Import PID.
(** Two controller states that are mirror images of each other: same gains
    and clock reference, opposite accumulated integral and last error. *)
Definition mirrored (s1 s2 : PIDController) : Prop :=
  kp s2 = kp s1 /\ ki s2 = ki s1 /\ kd s2 = kd s1 /\
  dead_zone s2 = dead_zone s1 /\ max_integral s2 = max_integral s1 /\
  _last_time s2 = _last_time s1 /\
  _integral s2 == - _integral s1 /\ _last_error s2 == - _last_error s1.

(** The same call with the error negated. *)
Definition mirror_call (c : call) : call :=
  match c with
  | CallCompute now e => CallCompute now (- e)
  | other => other
  end.

(** A call that does not install a negative integral bound. *)
Definition bound_nonneg (c : call) : Prop :=
  match c with
  | CallUpdateParams _ _ _ _ (Some m) => 0 <= m
  | _ => True
  end.
End PIDMirror.

(** ** More of core/line_detector.py *)

Module DetectorAux.
Import LineDetector.


(** The history respects its bound. *)
Definition history_bounded (d : Detector) : Prop :=
  (Z.of_nat (length (_prev_centers d)) <= Z.max 0 (_max_memory d))%Z.

(** The debug-image side of [LineDetector]: the last JPEG published, the
    time of the last [request_debug_frame] and the liveness window.  The
    type [J] stands for the encoded bytes. *)
Record DebugSink (J : Type) : Type := mkSink {
  _debug_frame : option J;
  _debug_request_ts : Q;
  _DEBUG_TIMEOUT : Q
}.
Arguments mkSink {J}.
Arguments _debug_frame {J}.
Arguments _debug_request_ts {J}.
Arguments _DEBUG_TIMEOUT {J}.

(** [__init__]: no frame yet, request time 0.0, window 3.0 s. *)
Definition sink_init {J} : DebugSink J := mkSink None 0 3.

(** [request_debug_frame()] called when the clock reads [now]. *)
Definition request_debug_frame {J} (k : DebugSink J) (now : Q) : DebugSink J :=
  mkSink (_debug_frame k) now (_DEBUG_TIMEOUT k).

Definition get_debug_frame {J} (k : DebugSink J) : option J := _debug_frame k.

(** The debug part of [_process] for a frame handled when the clock reads
    [now]; [jpeg] is what rendering and [cv2.imencode] give for the frame,
    which the code only computes when the window is open. *)
Definition process_debug {J} (k : DebugSink J) (now : Q) (jpeg : J)
    : DebugSink J :=
  let debug_active := Qltb (now - _debug_request_ts k) (_DEBUG_TIMEOUT k) in
  let jpeg_bytes := if debug_active then Some jpeg else None in
  match jpeg_bytes with
  | Some b => mkSink (Some b) (_debug_request_ts k) (_DEBUG_TIMEOUT k)
  | None => k
  end.

(** Frames handled one after the other, each with its clock reading. *)
Definition process_debug_all {J} (k : DebugSink J) (frames : list (Q * J))
    : DebugSink J :=
  fold_left (fun k f => process_debug k (fst f) (snd f)) frames k.

End DetectorAux.

(** ** Engines.py: wheel drivers and camera servo *)

Module Wheels.

(** One TB6612 channel as [_set_wheel] leaves it: the levels written to the
    two direction pins and the PWM duty cycle. *)
Record Channel : Type := mkChannel {
  in1 : bool;
  in2 : bool;
  duty : Q
}.

(** [_set_wheel(position, speed)] for a wheel whose channel has the given
    inversion factor. *)
Definition _set_wheel (inversion : Z) (speed : Q) : Channel :=
  let speed := clamp (speed * inject_Z inversion) (-100) 100 in
  if Qltb 0 speed then mkChannel true false (Qabs speed)
  else if Qltb speed 0 then mkChannel false true (Qabs speed)
  else mkChannel false false (Qabs speed).

(** The inversion factor of the channel mapped to each wheel position. *)
Record Wiring : Type := mkWiring {
  inv_front_left : Z;
  inv_front_right : Z;
  inv_rear_left : Z;
  inv_rear_right : Z
}.

Record Motors : Type := mkMotors {
  front_left : Channel;
  front_right : Channel;
  rear_left : Channel;
  rear_right : Channel
}.

(** What [set_motors(fl, fr, rl, rr)] writes to the four channels. *)
Definition set_motors (k : Wiring) (fl fr rl rr : Q) : Motors :=
  mkMotors (_set_wheel (inv_front_left k) fl)
           (_set_wheel (inv_front_right k) fr)
           (_set_wheel (inv_rear_left k) rl)
           (_set_wheel (inv_rear_right k) rr).

(** The channels after the events of a control-thread trace. *)
Definition drive (k : Wiring) (m : Motors) (e : Robot.event) : Motors :=
  match e with
  | Robot.SetMotors fl fr rl rr => set_motors k fl fr rl rr
  | Robot.Sleep _ => m
  end.

Definition replay (k : Wiring) (m : Motors) (tr : list Robot.event) : Motors :=
  fold_left (drive k) tr m.

Definition coasting (c : Channel) : Prop :=
  in1 c = false /\ in2 c = false /\ duty c == 0.

(** The camera servo: limits from the configuration, the angle last set
    and the duty cycle last written to its PWM. *)
Record Servo : Type := mkServo {
  _servo_min : Q;
  _servo_center : Q;
  _servo_max : Q;
  servo_settle_time : Q;
  _servo_angle : Q;
  servo_duty : Q
}.

(** [set_servo(angle, settle_time)]; the second component is the time
    slept, if any. *)
Definition set_servo (s : Servo) (angle : Q) (settle_time : option Q)
    : Servo * option Q :=
  let settle_time :=
    match settle_time with Some t => t | None => servo_settle_time s end in
  let angle := clamp angle (_servo_min s) (_servo_max s) in
  let duty := 2 + angle / 18 in
  if Qltb 0 settle_time then
    (mkServo (_servo_min s) (_servo_center s) (_servo_max s)
             (servo_settle_time s) angle 0,
     Some settle_time)
  else
    (mkServo (_servo_min s) (_servo_center s) (_servo_max s)
             (servo_settle_time s) angle duty,
     None).

Definition servo_center (s : Servo) (settle_time : option Q) :=
  set_servo s (_servo_center s) settle_time.

Definition servo_left (s : Servo) (degrees_from_center : Q)
    (settle_time : option Q) :=
  set_servo s (_servo_center s - degrees_from_center) settle_time.

Definition servo_right (s : Servo) (degrees_from_center : Q)
    (settle_time : option Q) :=
  set_servo s (_servo_center s + degrees_from_center) settle_time.

(** A servo command as a client issues it. *)
Inductive servo_call : Type :=
| SetServo (angle : Q) (settle_time : option Q)
| ServoCenter (settle_time : option Q)
| ServoLeft (degrees : Q) (settle_time : option Q)
| ServoRight (degrees : Q) (settle_time : option Q).

Definition servo_step (s : Servo) (c : servo_call) : Servo :=
  match c with
  | SetServo a t => fst (set_servo s a t)
  | ServoCenter t => fst (servo_center s t)
  | ServoLeft d t => fst (servo_left s d t)
  | ServoRight d t => fst (servo_right s d t)
  end.

End Wheels.

Module Faults.
Import Robot.

(** No two consecutive wheel commands are refused. *)
Fixpoint isolated (fs : list bool) : bool :=
  match fs with
  | [] => true
  | b :: rest =>
      match b, rest with
      | true, true :: _ => false
      | _, _ => isolated rest
      end
  end.

(** The configured right-angle turn time is a valid sleep length. *)
Definition turn_time_ok (w : World) : Prop :=
  0 <= right_angle_turn_time (_engines w).

(** How an operation started in [w] uses up the fault schedule: when it
    completes, what is left is a suffix of what it found; when it raises,
    what is left is what followed a refusal.  It also leaves the turn time
    valid. *)
Definition consumes {A} (m : M A) (w : World) : Prop :=
  turn_time_ok (fst (m w)) /\
  match m w with
  | (w', Ok _) => exists pre, faults w = pre ++ faults w'
  | (w', Raised) => exists pre, faults w = pre ++ true :: faults w'
  end.

End Faults.

(** ** CFGReader.py: inline comments *)

Module CFGReader.

(** A Python [str] as its sequence of code points. *)
Definition str : Type := list N.

Definition semicolon : str := [59%N].
Definition hash : str := [35%N].
Definition slashes : str := [47%N; 47%N].

Fixpoint str_eqb (a b : str) : bool :=
  match a, b with
  | [], [] => true
  | x :: a', y :: b' => (x =? y)%N && str_eqb a' b'
  | _, _ => false
  end.

(** [s.startswith(m)] *)
Fixpoint starts_with (m s : str) : bool :=
  match m, s with
  | [], _ => true
  | x :: m', y :: s' => (x =? y)%N && starts_with m' s'
  | _ :: _, [] => false
  end.

(** [s.find(m)]; [None] stands for -1. *)
Fixpoint find (m s : str) : option nat :=
  if starts_with m s then Some 0%nat
  else match s with
       | [] => None
       | _ :: s' => option_map S (find m s')
       end.

Section WithIsspace.

(** [str.isspace] on one character. *)
Variable isspace : N -> bool.

(** One round of the [for marker in ...] loop. *)
Definition strip_marker (s : str) (marker : str) : str :=
  match find marker s with
  | None => s
  | Some pos =>
      if str_eqb marker slashes
         && negb ((pos =? 0)%nat || isspace (nth (pos - 1) s 0%N))
      then s
      else firstn pos s
  end.

Definition _remove_inline_comments (s : str) : str :=
  fold_left strip_marker [semicolon; hash; slashes] s.

End WithIsspace.

(** [p] is a prefix of [s]. *)
Definition is_prefix (p s : str) : Prop := exists rest, s = p ++ rest.

End CFGReader.

(** ** Concrete scenarios *)

Module Scenario.
Import LineDetector.

(** Two blobs of areas 4000 and 1200 whose centroids lie 80 px and 3 px from
    the previous centre 100, scored with exponent 2. *)
Definition far_blob : Contour := mkContour 4000 4000 (4000 * 180) 0.
Definition near_blob : Contour := mkContour 1200 1200 (1200 * 103) 0.
Definition tracking_detector : Detector :=
  mkDetector 0 2 10 100 true 160 0 false false [100%Z].


(** A 320-pixel-wide camera, upright and mounted upside down. *)
Definition upright_detector : Detector := init 320 0 2 10 100 true.


Definition off_centre_frame : list Contour :=
  [mkContour 1000 1000 (1000 * 300) 0].

(** A robot with [search_time = 2.0] s and right-angle handling enabled,
    just started at time 0; [faults] is the fault schedule of its wheel
    commands. *)
Definition engines : Robot.Engines :=
  Robot.mkEngines 40 60 20 (-30) 35 50 (1 # 2) 2.

Definition robot (faults : list bool) : Robot.World :=
  Robot.start (Robot.init (PID.init 1 0 0 0 100) engines true 0 faults).

(** The readings of a lost line, of a line found 10 px right of centre, and
    of the detector after three far-off-centre frames. *)
Definition lost_reading : Robot.Reading := Robot.observe upright_detector.
Definition found_reading : Robot.Reading := Robot.mkReading false false 10.
Definition sharp_turn_reading : Robot.Reading :=
  Robot.observe
    (process_all upright_detector
       [off_centre_frame; off_centre_frame; off_centre_frame]).

End Scenario.

(** * Properties *)

(** ** Comparisons and clamping *)

Lemma Qltb_lt a b : Qltb a b = true <-> a < b.
Proof.
  unfold Qltb. rewrite negb_true_iff.
  split; intro H.
  - apply Qnot_le_lt. intro Hle. apply Qle_bool_iff in Hle. congruence.
  - destruct (Qle_bool b a) eqn:E; [|reflexivity].
    apply Qle_bool_iff in E. exfalso. apply (Qlt_not_le _ _ H E).
Qed.

Lemma Qltb_ge a b : Qltb a b = false <-> b <= a.
Proof.
  unfold Qltb. rewrite negb_false_iff. apply Qle_bool_iff.
Qed.

Lemma py_max_lb_l a b : a <= py_max a b.
Proof.
  unfold py_max. destruct (Qltb a b) eqn:E.
  - apply Qltb_lt in E. lra.
  - lra.
Qed.

Lemma py_max_lb_r a b : b <= py_max a b.
Proof.
  unfold py_max. destruct (Qltb a b) eqn:E.
  - lra.
  - apply Qltb_ge in E. lra.
Qed.

Lemma py_max_cases a b : py_max a b = a \/ py_max a b = b.
Proof. unfold py_max. destruct (Qltb a b); auto. Qed.

Lemma py_min_ub_l a b : py_min a b <= a.
Proof.
  unfold py_min. destruct (Qltb b a) eqn:E.
  - apply Qltb_lt in E. lra.
  - lra.
Qed.

Lemma py_min_ub_r a b : py_min a b <= b.
Proof.
  unfold py_min. destruct (Qltb b a) eqn:E.
  - lra.
  - apply Qltb_ge in E. lra.
Qed.

Lemma py_min_cases a b : py_min a b = a \/ py_min a b = b.
Proof. unfold py_min. destruct (Qltb b a); auto. Qed.

Lemma clamp_bounds v lo hi : lo <= hi -> lo <= clamp v lo hi <= hi.
Proof.
  intro H. unfold clamp. split; [apply py_max_lb_l|].
  destruct (py_max_cases lo (py_min hi v)) as [-> | ->]; [exact H|].
  apply py_min_ub_l.
Qed.

Lemma clamp_inverted v lo hi : hi < lo -> clamp v lo hi = lo.
Proof.
  intro H. unfold clamp, py_max.
  destruct (Qltb lo (py_min hi v)) eqn:E; [|reflexivity].
  apply Qltb_lt in E. pose proof (py_min_ub_l hi v). lra.
Qed.

Lemma clamp_abs v m : Qabs (clamp v (- m) m) <= Qabs m.
Proof.
  destruct (Qlt_le_dec m 0) as [Hneg | Hpos].
  - rewrite clamp_inverted by lra.
    rewrite Qabs_opp. apply Qle_refl.
  - pose proof (clamp_bounds v (- m) m ltac:(lra)) as [Hlo Hhi].
    rewrite (Qabs_pos m) by exact Hpos.
    apply Qabs_Qle_condition. split; assumption.
Qed.

(** ** The PID control law *)

Section PIDFacts.
Import PID.

Lemma elapsed_positive s now : 0 < elapsed s now.
Proof.
  unfold elapsed. destruct (_last_time s) as [t|].
  - pose proof (py_max_lb_r (now - t) min_dt). unfold min_dt in *. lra.
  - unfold first_dt. reflexivity.
Qed.

Lemma compute_with_integral s now dt e :
  _integral (fst (compute_with s now dt e)) =
  clamp (_integral s
         + (if Qltb (Qabs e) (dead_zone s) then 0 else e) * dt)
        (- max_integral s) (max_integral s).
Proof. reflexivity. Qed.

Lemma compute_with_max_integral s now dt e :
  max_integral (fst (compute_with s now dt e)) = max_integral s.
Proof. reflexivity. Qed.

Lemma compute_with_output_range s now dt e :
  -100 <= snd (compute_with s now dt e) <= 100.
Proof.
  unfold compute_with; cbn [snd].
  apply (clamp_bounds _ (-100) 100). lra.
Qed.

Lemma compute_with_integral_within s now dt e :
  integral_within (compute_with s now dt e).
Proof.
  unfold integral_within.
  rewrite compute_with_integral, compute_with_max_integral.
  split; [apply clamp_abs|].
  intro H. apply clamp_bounds. lra.
Qed.

Lemma run_integral_within cs : forall s, Forall integral_within (run s cs).
Proof.
  induction cs as [|c cs IH]; intro s; cbn [run]; [constructor|].
  destruct c; auto.
  constructor; [apply compute_with_integral_within | apply IH].
Qed.

Lemma run_with_integral_within cs :
  forall s, Forall integral_within (run_with s cs).
Proof.
  induction cs as [|[[now dt] e] cs IH]; intro s; cbn [run_with];
    constructor; [apply compute_with_integral_within | apply IH].
Qed.

End PIDFacts.

Section PIDClaims.
Import PID.

(** C1 (as amended).  Over any sequence of calls -- [compute] with arbitrary
    errors and clock readings, interleaved with [update_params] and
    [reset], or [compute] with every [dt > 0] chosen freely -- the state left
    by each [compute] call has [|_integral| <= |max_integral|]; whenever
    [max_integral >= 0] the accumulator lies in
    [[-max_integral, +max_integral]]. *)
Theorem pid_integral_clamped :
  (forall s cs, Forall integral_within (run s cs)) /\
  (forall s cs,
      Forall (fun c : Q * Q * Q => 0 < snd (fst c)) cs ->
      Forall integral_within (run_with s cs)).
Proof.
  split.
  - intros s cs. apply run_integral_within.
  - intros s cs _. apply run_with_integral_within.
Qed.

Lemma pid_integral_clamped_witness :
  Forall (fun c : Q * Q * Q => 0 < snd (fst c)) [(0, 1 # 2, 500)] /\
  0 <= 100 /\
  - (100) <= _integral (fst (compute_with (init 1 1 1 0 100) 0 (1 # 2) 500))
          <= 100.
Proof.
  assert (Hdt : Forall (fun c : Q * Q * Q => 0 < snd (fst c)) [(0, 1 # 2, 500)]).
  { constructor; [reflexivity | constructor]. }
  assert (Hmi : 0 <= 100) by (unfold Qle; simpl; lia).
  split; [exact Hdt|]. split; [exact Hmi|].
  pose proof (proj2 pid_integral_clamped (init 1 1 1 0 100)
                    [(0, 1 # 2, 500)] Hdt) as H.
  inversion H as [|r rs [_ Hin] _]. subst.
  exact (Hin Hmi).
Defined.

(** C1 as stated fails for a negative [max_integral]: the clamp then pins
    the accumulator at [-max_integral], which exceeds [max_integral]. *)
Lemma pid_integral_exceeds_negative_bound :
  let r := compute (init 1 1 1 0 (-1)) 0 5 in
  _integral (fst r) = 1 /\
  max_integral (fst r) = -1 /\
  ~ Qabs (_integral (fst r)) <= max_integral (fst r).
Proof.
  cbv zeta. split; [reflexivity|]. split; [reflexivity|].
  intro H. vm_compute in H. apply H. reflexivity.
Qed.

(** C2.  Every value [compute] returns lies in [[-100, 100]], whatever the
    state, the error and the clock reading; hence so does every output over
    any sequence of calls, with [dt] read from the clock or fixed freely. *)
Theorem pid_output_clamped :
  (forall s now e, output_in_range (compute s now e)) /\
  (forall s cs, Forall output_in_range (run s cs)) /\
  (forall s cs, Forall output_in_range (run_with s cs)).
Proof.
  split; [|split].
  - intros s now e. apply compute_with_output_range.
  - intros s cs. revert s.
    induction cs as [|c cs IH]; intro s; cbn [run]; [constructor|].
    destruct c; auto.
    constructor; [apply compute_with_output_range | apply IH].
  - intros s cs. revert s.
    induction cs as [|[[now dt] e] cs IH]; intro s; cbn [run_with];
      constructor; [apply compute_with_output_range | apply IH].
Qed.

(** C6.  [reset()] followed by [compute(e)] returns what a freshly
    constructed controller with the same parameters returns for [e] as its
    first sample, whatever the two clock readings: both calls take the
    first-call [dt], and they leave the same integral and last error. *)
Theorem reset_then_compute_as_fresh :
  forall s now now' e,
    let fresh :=
      init (kp s) (ki s) (kd s) (dead_zone s) (max_integral s) in
    elapsed (reset s) now = first_dt /\
    elapsed fresh now' = first_dt /\
    snd (compute (reset s) now e) = snd (compute fresh now' e) /\
    _integral (fst (compute (reset s) now e)) =
      _integral (fst (compute fresh now' e)) /\
    _last_error (fst (compute (reset s) now e)) =
      _last_error (fst (compute fresh now' e)).
Proof.
  intros s now now' e fresh. subst fresh.
  unfold compute, elapsed, reset, init; cbn.
  repeat split; reflexivity.
Qed.

(** C8 (as amended).  The first [compute] call of a controller, and the
    first one after any [reset()], takes [dt = 0.033] s; every later call
    takes the clock difference to the previous call, raised to 0.001 s when
    it is smaller; [update_params] does not disturb this. *)
Theorem compute_dt :
  (forall a b c d m now, elapsed (init a b c d m) now = 33 # 1000) /\
  (forall s now, elapsed (reset s) now = 33 # 1000) /\
  (forall s now e, compute s now e = compute_with s now (elapsed s now) e) /\
  (forall s t0 e0 now,
      let s' := fst (compute s t0 e0) in
      elapsed s' now = py_max (now - t0) (1 # 1000) /\
      (1 # 1000 <= now - t0 -> elapsed s' now = now - t0) /\
      (now - t0 < 1 # 1000 -> elapsed s' now = 1 # 1000) /\
      1 # 1000 <= elapsed s' now) /\
  (forall s a b c d m now,
      elapsed (update_params s a b c d m) now = elapsed s now).
Proof.
  repeat split; try reflexivity.
  - intro H. cbn. unfold py_max, min_dt.
    apply Qltb_ge in H. rewrite H. reflexivity.
  - intro H. cbn. unfold py_max, min_dt.
    apply Qltb_lt in H. rewrite H. reflexivity.
  - cbn. apply py_max_lb_r.
Qed.

Lemma compute_dt_witness :
  1 # 1000 <= 5 - 3 /\
  elapsed (fst (compute (init 1 0 0 0 100) 3 7)) 5 = 5 - 3.
Proof.
  assert (H : 1 # 1000 <= 5 - 3) by (unfold Qle; simpl; lia).
  split; [exact H|].
  destruct compute_dt as (_ & _ & _ & Hnext & _).
  exact (proj1 (proj2 (Hnext (init 1 0 0 0 100) 3 7 5)) H).
Defined.

(** C8 as stated fails on its first-call value: the constant in the code is
    0.033, not 1/30. *)
Lemma first_dt_is_not_one_thirtieth :
  elapsed (init 1 0 0 0 100) 0 = 33 # 1000 /\
  ~ elapsed (init 1 0 0 0 100) 0 == 1 # 30.
Proof.
  split; [reflexivity|].
  intro H. vm_compute in H. discriminate H.
Qed.

End PIDClaims.

(** ** Blob selection *)

Section Selection.
Import LineDetector.

Lemma fold_area_max cs : forall c0,
  let b :=
    fold_left
      (fun best c' =>
         if Qltb (contourArea best) (contourArea c') then c' else best)
      cs c0 in
  In b (c0 :: cs) /\
  contourArea c0 <= contourArea b /\
  forall c, In c cs -> contourArea c <= contourArea b.
Proof.
  induction cs as [|c1 cs IH]; intro c0; cbn [fold_left].
  - split; [left; reflexivity|]. split; [apply Qle_refl|].
    intros c [].
  - destruct (Qltb (contourArea c0) (contourArea c1)) eqn:E.
    + destruct (IH c1) as (Hin & Hge & Hall).
      apply Qltb_lt in E.
      split; [right; exact Hin|]. split; [lra|].
      intros c [<- | Hc]; [exact Hge | exact (Hall c Hc)].
    + destruct (IH c0) as (Hin & Hge & Hall).
      apply Qltb_ge in E.
      split; [destruct Hin as [<- | Hin]; [left; reflexivity | right; right; exact Hin]|].
      split; [exact Hge|].
      intros c [<- | Hc]; [lra | exact (Hall c Hc)].
Qed.

Lemma max_by_area_largest cs :
  cs <> [] ->
  exists b,
    max_by_area cs = Some b /\ In b cs /\
    forall c, In c cs -> contourArea c <= contourArea b.
Proof.
  destruct cs as [|c0 cs]; [congruence|]. intros _.
  destruct (fold_area_max cs c0) as (Hin & Hge & Hall).
  eexists. split; [reflexivity|]. split; [exact Hin|].
  intros c [<- | Hc]; [exact Hge | exact (Hall c Hc)].
Qed.

Lemma eligible_spec c :
  eligible c = true <-> 100 <= contourArea c /\ ~ m00 c == 0.
Proof.
  unfold eligible. rewrite andb_true_iff, !negb_true_iff.
  rewrite Qltb_ge. unfold Qeqb.
  split; intros [Ha Hm]; (split; [exact Ha|]).
  - intro H. apply Qeq_bool_iff in H. congruence.
  - destruct (Qeq_bool (m00 c) 0) eqn:E; [|reflexivity].
    apply Qeq_bool_iff in E. contradiction.
Qed.

Lemma scan_step p l c cs best bs :
  scan p l (c :: cs) best bs =
    if eligible c then
      if Qltb bs (score p l c) then scan p l cs (Some c) (score p l c)
      else scan p l cs best bs
    else scan p l cs best bs.
Proof.
  cbn [scan]. unfold eligible.
  destruct (Qltb (contourArea c) 100); [reflexivity|].
  destruct (Qeqb (m00 c) 0); reflexivity.
Qed.

Lemma score_positive p l c : 100 <= contourArea c -> 0 < score p l c.
Proof.
  intro Ha. unfold score. cbv zeta.
  set (dist := (Z.abs (centroid_x c - l) + 1)%Z).
  assert (Hd : 0 < inject_Z dist).
  { replace 0 with (inject_Z 0) by reflexivity.
    rewrite <- Zlt_Qlt. subst dist. lia. }
  pose proof (Qpower_0_lt (inject_Z dist) p Hd) as Hp.
  unfold Qdiv. apply Qmult_lt_0_compat; [lra|].
  apply Qinv_lt_0_compat. exact Hp.
Qed.

(** The loop keeps a running maximum: [bs'] is the best score at its end. *)
Lemma scan_running_max p l cs : forall best bs,
  exists bs',
    bs <= bs' /\
    (forall c, In c cs -> eligible c = true -> score p l c <= bs') /\
    ((scan p l cs best bs = best /\ bs' = bs) \/
     (exists b, scan p l cs best bs = Some b /\ In b cs /\
                eligible b = true /\ bs' = score p l b /\ bs < bs')).
Proof.
  induction cs as [|c cs IH]; intros best bs.
  - exists bs. split; [apply Qle_refl|]. split; [intros c []|].
    left. split; reflexivity.
  - rewrite scan_step. destruct (eligible c) eqn:El.
    + destruct (Qltb bs (score p l c)) eqn:E.
      * apply Qltb_lt in E.
        destruct (IH (Some c) (score p l c)) as (bs' & Hle & Hall & Hres).
        exists bs'. split; [lra|]. split.
        { intros c' [<- | Hc'] Hel; [exact Hle | exact (Hall c' Hc' Hel)]. }
        right. destruct Hres as [[Hs ->] | (b & Hs & Hin & Helb & -> & Hlt)].
        { exists c. rewrite Hs. repeat split; auto. left; reflexivity. }
        { exists b. repeat split; auto; [right; exact Hin | lra]. }
      * apply Qltb_ge in E.
        destruct (IH best bs) as (bs' & Hle & Hall & Hres).
        exists bs'. split; [exact Hle|]. split.
        { intros c' [<- | Hc'] Hel; [lra | exact (Hall c' Hc' Hel)]. }
        destruct Hres as [[Hs ->] | (b & Hs & Hin & Helb & -> & Hlt)].
        { left. split; [exact Hs | reflexivity]. }
        { right. exists b. repeat split; auto. right; exact Hin. }
    + destruct (IH best bs) as (bs' & Hle & Hall & Hres).
      exists bs'. split; [exact Hle|]. split.
      { intros c' [<- | Hc'] Hel; [congruence | exact (Hall c' Hc' Hel)]. }
      destruct Hres as [[Hs ->] | (b & Hs & Hin & Helb & -> & Hlt)].
      { left. split; [exact Hs | reflexivity]. }
      { right. exists b. repeat split; auto. right; exact Hin. }
Qed.

Lemma scan_no_candidate p l cs : forall best bs,
  (forall c, In c cs -> eligible c = false) ->
  scan p l cs best bs = best.
Proof.
  induction cs as [|c cs IH]; intros best bs H; [reflexivity|].
  rewrite scan_step, (H c (or_introl eq_refl)).
  apply IH. intros c' Hc'. apply H. right; exact Hc'.
Qed.

Lemma scan_selects_maximum p l cs :
  (exists c, In c cs /\ eligible c = true) ->
  exists b,
    scan p l cs None (-1) = Some b /\ In b cs /\ eligible b = true /\
    forall c, In c cs -> eligible c = true -> score p l c <= score p l b.
Proof.
  intros (c & Hc & Hel).
  destruct (scan_running_max p l cs None (-1))
    as (bs' & Hle & Hall & [[Hs ->] | (b & Hs & Hin & Helb & -> & Hlt)]).
  - exfalso. pose proof (Hall c Hc Hel) as H.
    apply eligible_spec in Hel. destruct Hel as [Ha _].
    pose proof (score_positive p l c Ha). lra.
  - exists b. repeat split; auto.
Qed.

Lemma py_last_nil_iff l : py_last l = None <-> l = [].
Proof.
  unfold py_last. split.
  - destruct (rev l) eqn:E; [|discriminate].
    intros _. apply (f_equal (@rev Z)) in E.
    rewrite rev_involutive in E. exact E.
  - intros ->. reflexivity.
Qed.

End Selection.

(** *** Scores that raise *)

Section ScoringFacts.
Import LineDetector.














End ScoringFacts.

Section SelectionClaims.
Import LineDetector Scenario.




(** In that scenario the nearer, smaller blob wins: 1200 / 4^2 = 75
    against 4000 / 81^2 < 1. *)
Example nearer_blob_selected :
  _best_contour tracking_detector [far_blob; near_blob] = Some near_blob.
Proof. reflexivity. Qed.

End SelectionClaims.

(** ** Frame processing *)

Section Processing.
Import LineDetector.

Lemma process_cases d cs :
  (exists best,
      selected d cs = Some best /\ 0 < m00 best /\
      _process d cs = publish_found d best) \/
  ((selected d cs = None \/
    exists best, selected d cs = Some best /\ m00 best <= 0) /\
   _process d cs = publish_lost d).
Proof.
  unfold _process. destruct (selected d cs) as [best|].
  - destruct (Qltb 0 (m00 best)) eqn:E.
    + left. exists best. apply Qltb_lt in E. auto.
    + right. apply Qltb_ge in E. split; [right; exists best; auto | reflexivity].
  - right. split; [left; reflexivity | reflexivity].
Qed.


Lemma process_lost_inv d cs :
  _line_lost (_process d cs) = true -> _process d cs = publish_lost d.
Proof.
  destruct (process_cases d cs) as [(best & _ & _ & ->) | [_ ->]].
  - cbn. discriminate.
  - reflexivity.
Qed.

Lemma process_config d cs :
  _rotation (_process d cs) = _rotation d /\
  _continuity_power (_process d cs) = _continuity_power d /\
  _max_memory (_process d cs) = _max_memory d /\
  _ra_threshold (_process d cs) = _ra_threshold d /\
  _ra_enabled (_process d cs) = _ra_enabled d /\
  _cx (_process d cs) = _cx d.
Proof.
  destruct (process_cases d cs) as [(best & _ & _ & ->) | [_ ->]];
    cbn; repeat split; reflexivity.
Qed.

(** Non-empty input to [_best_contour] never makes [max] fail. *)
Lemma best_contour_total d cs :
  cs <> [] -> exists b, _best_contour d cs = Some b /\ In b cs.
Proof.
  intro Hne. unfold _best_contour.
  destruct (max_by_area_largest cs Hne) as (m & Hm & Hin & _).
  destruct (py_last (_prev_centers d)) as [l|]; [|eauto].
  destruct (scan_running_max (_continuity_power d) l cs None (-1))
    as (bs' & _ & _ & [[-> _] | (b & -> & Hb & _)]); eauto.
Qed.

Lemma published_lost_defaults d :
  published d -> _line_lost d = true ->
  _error d = 0 /\ _right_angle d = false.
Proof.
  induction 1 as [w r p m t e | d cs _ _ | d p _ IH]; intro Hl.
  - split; reflexivity.
  - rewrite (process_lost_inv d cs Hl). split; reflexivity.
  - apply IH. exact Hl.
Qed.

(** *** The bounded history *)


Lemma remember_bounded d c :
  (0 <= _max_memory d)%Z ->
  (Z.of_nat (length (_prev_centers d)) <= _max_memory d)%Z ->
  (Z.of_nat (length (remember d c)) <= _max_memory d)%Z.
Proof.
  intros H0 H. unfold remember.
  destruct (Z.of_nat (length (_prev_centers d ++ [c])) >? _max_memory d)%Z
    eqn:E.
  - destruct (_prev_centers d ++ [c]) eqn:E'.
    + cbn. exact H0.
    + apply (f_equal (@length Z)) in E'. rewrite length_app in E'.
      cbn in E'. cbn [tl]. lia.
  - rewrite Z.gtb_ltb in E. apply Z.ltb_ge in E. exact E.
Qed.




End Processing.

Section ProcessingClaims.
Import LineDetector Scenario.



(** C10.  Whenever a processed frame is published with [lost = true] -- which
    is the case exactly when no blob was selected or the selected one has
    [m00 <= 0] -- the published error is 0, the right-angle flag is false and
    the history is empty; the same holds of every observation a reader can
    see, the initial one included. *)
Theorem lost_observation_defaults :
  (forall d cs,
      is_line_lost (_process d cs) = true ->
      get_error (_process d cs) = 0 /\
      is_right_angle (_process d cs) = false /\
      _prev_centers (_process d cs) = []) /\
  (forall d cs,
      (selected d cs = None \/
       exists best, selected d cs = Some best /\ m00 best <= 0) ->
      is_line_lost (_process d cs) = true) /\
  (forall d,
      published d -> is_line_lost d = true ->
      get_error d = 0 /\ is_right_angle d = false).
Proof.
  split; [|split].
  - intros d cs Hl. rewrite (process_lost_inv d cs Hl).
    repeat split; reflexivity.
  - intros d cs H.
    destruct (process_cases d cs) as [(best & Hs & Hm & _) | [_ ->]];
      [|reflexivity].
    exfalso. destruct H as [H | (b & Hb & Hle)]; [congruence|].
    rewrite Hs in Hb. injection Hb as <-. lra.
  - intros d Hp Hl. apply published_lost_defaults; assumption.
Qed.


Lemma lost_observation_defaults_witness :
  is_line_lost (_process tracking_detector []) = true /\
  get_error (_process tracking_detector []) = 0 /\
  is_right_angle (_process tracking_detector []) = false /\
  _prev_centers (_process tracking_detector []) = [].
Proof.
  split; [reflexivity|].
  exact (proj1 lost_observation_defaults tracking_detector [] eq_refl).
Defined.

End ProcessingClaims.

(** ** Right-angle detection *)

Section RightAngle.
Import LineDetector Scenario.













End RightAngle.

(** ** The supervisor *)

Section Supervisor.
Import Robot Scenario.

Ltac unfold_robot :=
  unfold iteration, try_except, branch, _handle_search, _handle_follow,
    _handle_right_angle, on_exception, right_angle_left, right_angle_right,
    turn_left, turn_right, curve, set_speed, stop, set_motors, sleep,
    set_state, set_pid, set_search_dir, set_search_start, pid_reset,
    pid_compute, monotonic, bind, get, ret.

Lemma bind_ok {A B} (m : M A) (k : A -> M B) w w' a :
  m w = (w', Ok a) -> bind m k w = k a w'.
Proof. intro H. unfold bind. rewrite H. reflexivity. Qed.

Lemma bind_raised {A B} (m : M A) (k : A -> M B) w w' :
  m w = (w', Raised) -> bind m k w = (w', Raised).
Proof. intro H. unfold bind. rewrite H. reflexivity. Qed.

Lemma keeps_running_ret {A} (a : A) : keeps_running (ret a).
Proof. intro w. reflexivity. Qed.

Lemma keeps_running_get {A} (f : World -> A) : keeps_running (get f).
Proof. intro w. reflexivity. Qed.

Lemma keeps_running_bind {A B} (m : M A) (k : A -> M B) :
  keeps_running m -> (forall a, keeps_running (k a)) ->
  keeps_running (bind m k).
Proof.
  intros Hm Hk w. unfold bind. specialize (Hm w).
  destruct (m w) as [w' [a|]]; cbn in *.
  - rewrite (Hk a w'). exact Hm.
  - exact Hm.
Qed.

Lemma keeps_running_set_motors a b c d : keeps_running (set_motors a b c d).
Proof. intro w. unfold set_motors. destruct (faults w) as [|[] fs]; reflexivity. Qed.

Lemma keeps_running_sleep s : keeps_running (sleep s).
Proof. intro w. unfold sleep. destruct (Qltb s 0); reflexivity. Qed.

Lemma keeps_running_set_pid p : keeps_running (set_pid p).
Proof. intro w. reflexivity. Qed.

Lemma keeps_running_set_state s : keeps_running (set_state s).
Proof. intro w. reflexivity. Qed.

Lemma keeps_running_set_search_dir z : keeps_running (set_search_dir z).
Proof. intro w. reflexivity. Qed.

Lemma keeps_running_set_search_start t : keeps_running (set_search_start t).
Proof. intro w. reflexivity. Qed.

Lemma keeps_running_try body handler :
  keeps_running body -> keeps_running handler ->
  keeps_running (try_except body handler).
Proof.
  intros Hb Hh w. unfold try_except. specialize (Hb w).
  destruct (body w) as [w' [a|]]; cbn in *.
  - exact Hb.
  - rewrite (Hh w'). exact Hb.
Qed.

Ltac keeps :=
  repeat first
    [ apply keeps_running_ret | apply keeps_running_get
    | apply keeps_running_set_motors | apply keeps_running_sleep
    | apply keeps_running_set_pid | apply keeps_running_set_state
    | apply keeps_running_set_search_dir
    | apply keeps_running_set_search_start
    | apply keeps_running_bind; [|intro]
    | match goal with
      | |- keeps_running (if ?b then _ else _) => destruct b
      | |- keeps_running (match ?x with _ => _ end) => destruct x
      end ].

Lemma keeps_running_branch r : keeps_running (branch r).
Proof.
  unfold branch, _handle_right_angle, _handle_search, _handle_follow,
    right_angle_left, right_angle_right, turn_left, turn_right, curve,
    set_speed, stop, pid_reset, pid_compute, monotonic.
  keeps.
Qed.

Lemma keeps_running_iteration r : keeps_running (iteration r).
Proof.
  unfold iteration. apply keeps_running_try;
    [apply keeps_running_branch | unfold on_exception, stop; keeps].
Qed.

Lemma stop_accepted w :
  next_ok w = true ->
  exists w',
    stop w = (w', Ok tt) /\ trace w' = trace w ++ [SetMotors 0 0 0 0] /\
    clock w' = clock w.
Proof.
  unfold next_ok, stop, set_motors. intro H.
  destruct (faults w) as [|[] fs]; try discriminate;
    eexists; repeat split; reflexivity.
Qed.

Lemma stop_refused w :
  next_ok w = false ->
  exists w',
    stop w = (w', Raised) /\ trace w' = trace w /\ clock w' = clock w.
Proof.
  unfold next_ok, stop, set_motors. intro H.
  destruct (faults w) as [|[] fs]; try discriminate;
    eexists; repeat split; reflexivity.
Qed.

Lemma published_lost_takes_search w d :
  LineDetector.published d -> LineDetector.is_line_lost d = true ->
  takes_search w (observe d).
Proof.
  intros Hp Hl. destruct (published_lost_defaults d Hp Hl) as [_ Hra].
  unfold takes_search, observe; cbn.
  unfold LineDetector.is_right_angle. rewrite Hra. split; [reflexivity | exact Hl].
Qed.

Lemma search_entry w r :
  takes_search w r -> _search_start w = None ->
  _search_start (fst (iteration r w)) = Some (clock w).
Proof.
  intros [Hra Hlost] Hstart.
  unfold_robot. cbn. rewrite Hra, Hlost, Hstart. cbn.
  destruct (Qltb (_search_time w) (clock w - clock w));
    destruct (faults w) as [|[] [|[] fs]]; cbn;
    try reflexivity;
    destruct (0 <? _search_dir w)%Z; reflexivity.
Qed.

Lemma search_keeps_timer w r t0 :
  takes_search w r -> _search_start w = Some t0 ->
  _search_start (fst (iteration r w)) = Some t0.
Proof.
  intros [Hra Hlost] Hstart.
  unfold_robot. cbn. rewrite Hra, Hlost, Hstart. cbn. rewrite Hstart.
  destruct (Qltb (_search_time w) (clock w - t0));
    destruct (0 <? _search_dir w)%Z;
    destruct (faults w) as [|[] [|[] fs]]; cbn; exact Hstart.
Qed.

Lemma search_timeout w r t0 :
  takes_search w r -> _search_start w = Some t0 ->
  _search_time w < clock w - t0 -> next_ok w = true ->
  let w' := fst (iteration r w) in
  snd (iteration r w) = Ok tt /\
  trace w' = trace w ++ [SetMotors 0 0 0 0; Sleep (1 # 2)] /\
  mode (_state w') = stopped /\ speed (_state w') = 0 /\
  steering (_state w') = 0 /\
  _search_start w' = Some t0 /\ clock w' = clock w + (1 # 2).
Proof.
  intros [Hra Hlost] Hstart Hlate Hok.
  apply Qltb_lt in Hlate. unfold next_ok in Hok.
  unfold_robot. cbn. rewrite Hra, Hlost, Hstart. cbn.
  rewrite Hstart, Hlate.
  destruct (faults w) as [|[] fs]; try discriminate; cbn;
    rewrite <- app_assoc; repeat split; assumption.
Qed.

Lemma follow_resumes w r :
  takes_follow w r -> next_ok w = true ->
  let w' := fst (iteration r w) in
  snd (iteration r w) = Ok tt /\
  mode (_state w') = following /\
  error (_state w') = seen_error r /\
  _search_start w' = None /\
  steering (_state w') =
    snd (PID.compute
           (if mode_eqb (mode (_state w)) following then _pid w
            else PID.reset (_pid w))
           (clock w) (seen_error r)) /\
  exists l r', trace w' = trace w ++ [SetMotors l r' l r'].
Proof.
  intros [Hra Hlost] Hok. unfold next_ok in Hok.
  unfold_robot. cbn. rewrite Hra, Hlost. cbn.
  destruct (mode_eqb (mode (_state w)) following); cbn;
    destruct (faults w) as [|[] fs]; try discriminate; cbn;
    destruct (Qeqb (seen_error r) 0); cbn;
    repeat split; try reflexivity; eexists; eexists; reflexivity.
Qed.

(** C5 (as amended).  A lost line always selects the search arm; entering
    it starts the timer at the current clock, and no later pass through it
    moves the timer.  Once the clock is more than
    [search_time] past that start and the line is still lost, the iteration
    (its stop command being accepted) stops all motors, publishes mode
    "stopped" with speed 0 and steering 0, sleeps 0.5 s and keeps the timer.
    The state is not terminal: a later reading with the line found and the
    right-angle arm not selected makes the iteration (its wheel command
    being accepted) clear the timer and publish mode "following". *)
Theorem search_timeout_and_recovery :
  (forall w d,
      LineDetector.published d -> LineDetector.is_line_lost d = true ->
      takes_search w (observe d)) /\
  (forall w r,
      takes_search w r -> _search_start w = None ->
      _search_start (fst (iteration r w)) = Some (clock w)) /\
  (forall w r t0,
      takes_search w r -> _search_start w = Some t0 ->
      _search_start (fst (iteration r w)) = Some t0) /\
  (forall w r t0,
      takes_search w r -> _search_start w = Some t0 ->
      _search_time w < clock w - t0 -> next_ok w = true ->
      let w' := fst (iteration r w) in
      snd (iteration r w) = Ok tt /\
      trace w' = trace w ++ [SetMotors 0 0 0 0; Sleep (1 # 2)] /\
      mode (_state w') = stopped /\ speed (_state w') = 0 /\
      steering (_state w') = 0 /\
      _search_start w' = Some t0 /\ clock w' = clock w + (1 # 2)) /\
  (forall w r,
      takes_follow w r -> next_ok w = true ->
      let w' := fst (iteration r w) in
      snd (iteration r w) = Ok tt /\
      mode (_state w') = following /\
      _search_start w' = None).
Proof.
  split; [|split; [|split; [|split]]].
  - intros w d. apply published_lost_takes_search.
  - intros w r. apply search_entry.
  - intros w r t0. apply search_keeps_timer.
  - intros w r t0. apply search_timeout.
  - intros w r Hf Hok.
    destruct (follow_resumes w r Hf Hok) as (H1 & H2 & _ & H3 & _).
    auto.
Qed.

(** The end-to-end scenario: line lost at t = 0 with [search_time = 2.0];
    at t = 2.1 the robot is stopped, and the next reading with the line
    found brings it back to following. *)
Lemma search_timeout_and_recovery_witness :
  let w1 := fst (iteration lost_reading (robot [])) in
  let w2 := fst (iteration lost_reading (advance (21 # 10) w1)) in
  let w3 := fst (iteration found_reading w2) in
  (mode (_state w2) = stopped /\ speed (_state w2) = 0) /\
  (mode (_state w3) = following /\ _search_start w3 = None).
Proof.
  cbv zeta.
  destruct search_timeout_and_recovery as (_ & _ & _ & Hstop & Hgo).
  split.
  - destruct (Hstop (advance (21 # 10)
                       (fst (iteration lost_reading (robot []))))
                    lost_reading 0)
      as (_ & _ & Hm & Hs & _).
    + split; reflexivity.
    + reflexivity.
    + reflexivity.
    + reflexivity.
    + split; assumption.
  - destruct (Hgo (fst (iteration lost_reading
                          (advance (21 # 10)
                             (fst (iteration lost_reading (robot []))))))
                  found_reading)
      as (_ & Hm & Hs).
    + split; reflexivity.
    + reflexivity.
    + split; assumption.
Defined.

(** C5 as stated fails when the detector reports the line found together
    with the right-angle flag: the next iteration takes the right-angle arm,
    publishes mode "right_angle" and leaves the search timer set. *)
Lemma recovery_preempted_by_right_angle :
  let w1 := fst (iteration lost_reading (robot [])) in
  let w2 := fst (iteration lost_reading (advance (21 # 10) w1)) in
  let w3 := fst (iteration sharp_turn_reading w2) in
  mode (_state w2) = stopped /\
  seen_lost sharp_turn_reading = false /\
  mode (_state w3) = right_angle /\
  mode (_state w3) <> following /\
  _search_start w3 = Some 0.
Proof.
  cbv zeta. repeat split; try reflexivity.
  vm_compute. discriminate.
Qed.

(** C9.  When the arm taken by an iteration raises, the handler commands
    the wheels to stop, and what follows depends on that command.  If it is
    accepted, the iteration itself completes: all wheels are commanded to 0,
    0.1 s is slept, the loop flag is untouched, and [_loop] goes on with the
    remaining readings.  If it raises as well, nothing catches the
    exception: it leaves the handler, the iteration and [_loop], no stop
    reaches the wheels, no sleep is taken, and the remaining readings are
    never processed.  An iteration whose arm completes does not run the
    handler. *)
Theorem iteration_failure_handling :
  (forall w0 wait r rest w1,
      _running w0 = true ->
      branch r (advance wait w0) = (w1, Raised) ->
      next_ok w1 = true ->
      exists w2,
        iteration r (advance wait w0) = (w2, Ok tt) /\
        trace w2 = trace w1 ++ [SetMotors 0 0 0 0; Sleep (1 # 10)] /\
        clock w2 = clock w1 + (1 # 10) /\
        _running w2 = true /\
        _loop ((wait, r) :: rest) w0 = _loop rest w2) /\
  (forall w0 wait r rest w1,
      _running w0 = true ->
      branch r (advance wait w0) = (w1, Raised) ->
      next_ok w1 = false ->
      exists w2,
        iteration r (advance wait w0) = (w2, Raised) /\
        trace w2 = trace w1 /\
        clock w2 = clock w1 /\
        _loop ((wait, r) :: rest) w0 = (w2, Raised)) /\
  (forall w r w1,
      branch r w = (w1, Ok tt) -> iteration r w = (w1, Ok tt)).
Proof.
  split; [|split].
  - intros w0 wait r rest w1 Hrun Hraise Hok.
    destruct (stop_accepted w1 Hok) as (ws & Hstop & Htr & Hck).
    exists (fst (sleep (1 # 10) ws)).
    assert (Hit : iteration r (advance wait w0)
                  = (fst (sleep (1 # 10) ws), Ok tt)).
    { unfold iteration, try_except. rewrite Hraise.
      unfold on_exception. rewrite (bind_ok _ _ _ _ _ Hstop). reflexivity. }
    split; [exact Hit|]. split; [|split; [|split]].
    + cbn. rewrite Htr, <- app_assoc. reflexivity.
    + cbn. rewrite Hck. reflexivity.
    + pose proof (keeps_running_iteration r (advance wait w0)) as Hk.
      rewrite Hit in Hk. cbn [fst] in Hk. rewrite Hk. exact Hrun.
    + cbn [_loop]. rewrite Hrun.
      rewrite (bind_ok _ _ _ _ _ Hit). reflexivity.
  - intros w0 wait r rest w1 Hrun Hraise Hno.
    destruct (stop_refused w1 Hno) as (ws & Hstop & Htr & Hck).
    exists ws.
    assert (Hit : iteration r (advance wait w0) = (ws, Raised)).
    { unfold iteration, try_except. rewrite Hraise.
      unfold on_exception. apply bind_raised. exact Hstop. }
    split; [exact Hit|]. split; [exact Htr|]. split; [exact Hck|].
    cbn [_loop]. rewrite Hrun. apply bind_raised. exact Hit.
  - intros w r w1 H. unfold iteration, try_except. rewrite H. reflexivity.
Qed.

Lemma iteration_failure_handling_witness :
  let w := robot [true; true] in
  exists w2,
    iteration lost_reading (advance 0 w) = (w2, Raised) /\
    trace w2 = [] /\
    _loop [(0, lost_reading); (0, found_reading)] w = (w2, Raised).
Proof.
  cbv zeta.
  destruct (proj1 (proj2 iteration_failure_handling)
              (robot [true; true]) 0 lost_reading [(0, found_reading)]
              (fst (branch lost_reading (advance 0 (robot [true; true])))))
    as (w2 & Hit & Htr & _ & Hloop).
  - reflexivity.
  - reflexivity.
  - reflexivity.
  - exists w2. repeat split; assumption.
Defined.

End Supervisor.

(** * Further properties *)

(** ** Symmetry and dead zone of the control law *)

Section PIDExtra.
Import PID PIDMirror.

Lemma clamp_opp v1 v2 m :
  0 <= m -> v2 == - v1 -> clamp v2 (- m) m == - clamp v1 (- m) m.
Proof.
  intros Hm Hv. unfold clamp, py_max, py_min.
  destruct (Qltb v2 m) eqn:E1; destruct (Qltb v1 m) eqn:E2;
    repeat match goal with
    | H : Qltb _ _ = true |- _ => apply Qltb_lt in H
    | H : Qltb _ _ = false |- _ => apply Qltb_ge in H
    end;
    destruct (Qltb (- m) v2) eqn:E3; destruct (Qltb (- m) v1) eqn:E4;
    try (destruct (Qltb (- m) m) eqn:E5);
    repeat match goal with
    | H : Qltb _ _ = true |- _ => apply Qltb_lt in H
    | H : Qltb _ _ = false |- _ => apply Qltb_ge in H
    end; lra.
Qed.

Lemma Qltb_compat a a' b b' :
  a == a' -> b == b' -> Qltb a b = Qltb a' b'.
Proof.
  intros Ha Hb.
  destruct (Qltb a b) eqn:E1; destruct (Qltb a' b') eqn:E2; try reflexivity;
    repeat match goal with
    | H : Qltb _ _ = true |- _ => apply Qltb_lt in H
    | H : Qltb _ _ = false |- _ => apply Qltb_ge in H
    end; lra.
Qed.

Lemma dead_zone_opp e dz :
  (if Qltb (Qabs (- e)) dz then 0 else - e)
  == - (if Qltb (Qabs e) dz then 0 else e).
Proof.
  rewrite (Qltb_compat (Qabs (- e)) (Qabs e) dz dz (Qabs_opp e) (Qeq_refl dz)).
  destruct (Qltb (Qabs e) dz); lra.
Qed.

(** One call on mirrored states with opposite errors: opposite outputs, and
    the states stay mirrored. *)
Lemma compute_with_mirrored s1 s2 now dt e :
  0 <= max_integral s1 -> mirrored s1 s2 ->
  snd (compute_with s2 now dt (- e)) == - snd (compute_with s1 now dt e) /\
  mirrored (fst (compute_with s1 now dt e)) (fst (compute_with s2 now dt (- e))).
Proof.
  intros Hm (Hkp & Hki & Hkd & Hdz & Hmi & Hlt & Hi & Hle).
  unfold compute_with; cbn [fst snd].
  rewrite Hkp, Hki, Hkd, Hdz, Hmi.
  pose proof (dead_zone_opp e (dead_zone s1)) as He.
  set (e2 := if Qltb (Qabs (- e)) (dead_zone s1) then 0 else - e) in *.
  set (e1 := if Qltb (Qabs e) (dead_zone s1) then 0 else e) in *.
  assert (Hint : clamp (_integral s2 + e2 * dt) (- max_integral s1) (max_integral s1)
                 == - clamp (_integral s1 + e1 * dt) (- max_integral s1) (max_integral s1)).
  { apply clamp_opp; [exact Hm|]. rewrite Hi, He. ring. }
  fold (clamp (_integral s2 + e2 * dt) (- max_integral s1) (max_integral s1)).
  fold (clamp (_integral s1 + e1 * dt) (- max_integral s1) (max_integral s1)).
  set (i2 := clamp (_integral s2 + e2 * dt) _ _) in *.
  set (i1 := clamp (_integral s1 + e1 * dt) _ _) in *.
  split.
  - change (clamp (kp s1 * e2 + ki s1 * i2 + kd s1 * ((e2 - _last_error s2) / dt)) (- (100)) 100
            == - clamp (kp s1 * e1 + ki s1 * i1 + kd s1 * ((e1 - _last_error s1) / dt)) (- (100)) 100).
    apply clamp_opp; [lra|].
    rewrite Hint, He, Hle. unfold Qdiv. ring.
  - unfold mirrored; cbn. repeat split; try reflexivity; assumption.
Qed.

Lemma update_params_mirrored s1 s2 a b c d m :
  mirrored s1 s2 -> mirrored (update_params s1 a b c d m) (update_params s2 a b c d m).
Proof.
  intros (Hkp & Hki & Hkd & Hdz & Hmi & Hlt & Hi & Hle).
  unfold mirrored, update_params; cbn.
  rewrite Hkp, Hki, Hkd, Hdz, Hmi. repeat split; assumption.
Qed.

Lemma reset_mirrored s1 s2 : mirrored s1 s2 -> mirrored (reset s1) (reset s2).
Proof.
  intros (Hkp & Hki & Hkd & Hdz & Hmi & _).
  unfold mirrored, reset; cbn. repeat split; try assumption; reflexivity.
Qed.

Lemma elapsed_mirrored s1 s2 now : mirrored s1 s2 -> elapsed s2 now = elapsed s1 now.
Proof. intros (_ & _ & _ & _ & _ & Hlt & _). unfold elapsed. rewrite Hlt. reflexivity. Qed.

(** X1.  The controller is odd: feeding the negated errors to a controller in
    the mirrored state returns the negated steering values, call by call,
    as long as the integral bound is never negative. *)
Theorem pid_odd_symmetry :
  forall cs s1 s2,
    0 <= max_integral s1 -> mirrored s1 s2 -> Forall bound_nonneg cs ->
    Forall2 (fun r1 r2 => snd r2 == - snd r1)
            (run s1 cs) (run s2 (map mirror_call cs)).
Proof.
  induction cs as [|c cs IH]; intros s1 s2 Hm Hmir Hall; [constructor|].
  inversion Hall as [|c' cs' Hc Hcs]; subst.
  destruct c as [now e | a b c d m | ]; cbn [run map mirror_call].
  - unfold compute. rewrite (elapsed_mirrored s1 s2 now Hmir).
    destruct (compute_with_mirrored s1 s2 now (elapsed s1 now) e Hm Hmir)
      as [Hout Hmir'].
    constructor; [exact Hout|].
    apply IH; [exact Hm | exact Hmir' | exact Hcs].
  - apply IH; [|apply update_params_mirrored; exact Hmir | exact Hcs].
    destruct m as [m|]; cbn; [exact Hc | exact Hm].
  - apply IH; [exact Hm | apply reset_mirrored; exact Hmir | exact Hcs].
Qed.

Lemma mirrored_init a b c d m : mirrored (init a b c d m) (init a b c d m).
Proof. unfold mirrored, init; cbn. repeat split; reflexivity. Qed.

Lemma pid_odd_symmetry_witness :
  Forall2 (fun r1 r2 => snd r2 == - snd r1)
    (run (init 1 (1 # 2) (1 # 10) 2 100) [CallCompute 0 40; CallCompute 1 (-7)])
    (run (init 1 (1 # 2) (1 # 10) 2 100) [CallCompute 0 (- (40)); CallCompute 1 (- - (7))]).
Proof.
  apply (pid_odd_symmetry [CallCompute 0 40; CallCompute 1 (-7)]
           (init 1 (1 # 2) (1 # 10) 2 100) (init 1 (1 # 2) (1 # 10) 2 100)).
  - unfold Qle; simpl; lia.
  - apply mirrored_init.
  - repeat constructor.
Defined.

(** X2.  An error strictly inside the dead zone is handled exactly like a
    zero error; on a fresh or reset controller with a non-negative integral
    bound this gives steering 0 and leaves the integral at 0. *)
Theorem pid_dead_zone :
  (forall s now e,
      Qabs e < dead_zone s -> compute s now e = compute s now 0) /\
  (forall s now e,
      Qabs e < dead_zone s -> 0 <= max_integral s ->
      snd (compute (reset s) now e) == 0 /\
      _integral (fst (compute (reset s) now e)) == 0 /\
      _last_error (fst (compute (reset s) now e)) = 0).
Proof.
  split.
  - intros s now e H. unfold compute, compute_with.
    assert (H0 : Qltb (Qabs 0) (dead_zone s) = true).
    { apply Qltb_lt. pose proof (Qabs_nonneg e). change (Qabs 0) with 0. lra. }
    apply Qltb_lt in H. rewrite H, H0. reflexivity.
  - intros s now e H Hm. apply Qltb_lt in H.
    unfold compute, compute_with, elapsed, reset; cbn.
    rewrite H.
    assert (Hi : clamp (0 + 0 * first_dt) (- max_integral s) (max_integral s) == 0).
    { pose proof (clamp_bounds (0 + 0 * first_dt) (- max_integral s) (max_integral s) ltac:(lra)) as [Hlo Hhi].
      unfold clamp, py_max, py_min in *.
      destruct (Qltb (0 + 0 * first_dt) (max_integral s)) eqn:E1;
        [destruct (Qltb (- max_integral s) (0 + 0 * first_dt)) eqn:E2|
         destruct (Qltb (- max_integral s) (max_integral s)) eqn:E2];
        repeat match goal with
        | H : Qltb _ _ = true |- _ => apply Qltb_lt in H
        | H : Qltb _ _ = false |- _ => apply Qltb_ge in H
        end; unfold first_dt in *; lra. }
    fold (clamp (0 + 0 * first_dt) (- max_integral s) (max_integral s)).
    split; [|split; [exact Hi | reflexivity]].
    set (i := clamp (0 + 0 * first_dt) _ _) in *.
    assert (Hsum : kp s * 0 + ki s * i + kd s * ((0 - 0) / first_dt) == 0).
    { rewrite Hi. unfold Qdiv. ring. }
    pose proof (clamp_bounds (kp s * 0 + ki s * i + kd s * ((0 - 0) / first_dt)) (- (100)) 100 ltac:(lra)) as _.
    change (clamp (kp s * 0 + ki s * i + kd s * ((0 - 0) / first_dt)) (- (100)) 100 == 0).
    set (x := kp s * 0 + ki s * i + kd s * ((0 - 0) / first_dt)) in *.
    unfold clamp, py_max, py_min.
    destruct (Qltb x 100) eqn:E1;
      [destruct (Qltb (- (100)) x) eqn:E2 | destruct (Qltb (- (100)) 100) eqn:E2];
      repeat match goal with
      | H : Qltb _ _ = true |- _ => apply Qltb_lt in H
      | H : Qltb _ _ = false |- _ => apply Qltb_ge in H
      end; lra.
Qed.

Lemma pid_dead_zone_witness :
  snd (compute (reset (init 1 1 1 5 100)) 0 3) == 0.
Proof.
  refine (proj1 (proj2 pid_dead_zone (init 1 1 1 5 100) 0 3 _ _)).
  - reflexivity.
  - unfold Qle; simpl; lia.
Defined.

End PIDExtra.

(** ** The detector beyond the published observation *)

Section DetectorExtra.
Import LineDetector DetectorAux Scenario.

Lemma remember_history_bounded d c :
  (Z.of_nat (length (_prev_centers d)) <= Z.max 0 (_max_memory d))%Z ->
  (Z.of_nat (length (remember d c)) <= Z.max 0 (_max_memory d))%Z.
Proof.
  intro H. unfold remember.
  destruct (Z.of_nat (length (_prev_centers d ++ [c])) >? _max_memory d)%Z
    eqn:E.
  - destruct (_prev_centers d ++ [c]) eqn:E'.
    + cbn. lia.
    + apply (f_equal (@length Z)) in E'. rewrite length_app in E'.
      cbn in E'. cbn [tl]. lia.
  - rewrite Z.gtb_ltb in E. apply Z.ltb_ge in E. lia.
Qed.

Lemma process_history_bounded d cs :
  history_bounded d -> history_bounded (_process d cs).
Proof.
  unfold history_bounded. intro H.
  destruct (process_cases d cs) as [(best & _ & _ & ->) | [_ ->]]; cbn.
  - apply remember_history_bounded. exact H.
  - lia.
Qed.

Lemma process_all_max_memory frames :
  forall d, _max_memory (process_all d frames) = _max_memory d.
Proof.
  induction frames as [|f frames IH]; intro d; [reflexivity|].
  cbn [process_all fold_left]. unfold process_all in IH. rewrite IH.
  apply process_config.
Qed.

(** X3.  The centre history never outgrows its bound: from the initial
    detector, and from any detector whose history respects the bound, every
    sequence of frames leaves at most [max(0, max_memory)] centres. *)
Theorem history_never_exceeds_bound :
  (forall d frames,
      history_bounded d -> history_bounded (process_all d frames)) /\
  (forall w r p m t e frames,
      (Z.of_nat (length (_prev_centers (process_all (init w r p m t e) frames)))
       <= Z.max 0 m)%Z).
Proof.
  assert (Hall : forall frames d,
             history_bounded d -> history_bounded (process_all d frames)).
  { induction frames as [|f frames IH]; intros d H; [exact H|].
    cbn [process_all fold_left]. apply IH. apply process_history_bounded.
    exact H. }
  split.
  - intros d frames. apply Hall.
  - intros w r p m t e frames.
    pose proof (Hall frames (init w r p m t e)) as H.
    unfold history_bounded in H. rewrite process_all_max_memory in H.
    apply H. cbn. lia.
Qed.

Lemma history_never_exceeds_bound_witness :
  history_bounded tracking_detector /\
  history_bounded
    (process_all tracking_detector [[far_blob; near_blob]; [near_blob]]).
Proof.
  assert (H : history_bounded tracking_detector)
    by (unfold history_bounded; cbn; lia).
  split; [exact H|].
  exact (proj1 history_never_exceeds_bound tracking_detector
               [[far_blob; near_blob]; [near_blob]] H).
Defined.

Lemma valid_contours_spec cs c :
  In c (valid_contours cs) <-> In c cs /\ 50 < contourArea c.
Proof.
  unfold valid_contours. rewrite filter_In, Qltb_lt. reflexivity.
Qed.

Lemma best_contour_member d cs b : _best_contour d cs = Some b -> In b cs.
Proof.
  intro H. destruct cs as [|c0 cs]; [|].
  - unfold _best_contour in H. cbn in H.
    destruct (py_last (_prev_centers d)); discriminate.
  - destruct (best_contour_total d (c0 :: cs) ltac:(discriminate))
      as (b' & Hb' & Hin).
    congruence.
Qed.

Lemma selected_member d cs b :
  selected d cs = Some b -> In b cs /\ 50 < contourArea b.
Proof.
  unfold selected. destruct cs as [|c0 cs]; [discriminate|].
  destruct (valid_contours (c0 :: cs)) as [|v vs] eqn:E; [discriminate|].
  intro H. apply best_contour_member in H. rewrite <- E in H.
  apply valid_contours_spec. exact H.
Qed.

Lemma selected_none d cs :
  selected d cs = None <-> forall c, In c cs -> contourArea c <= 50.
Proof.
  unfold selected. split.
  - destruct cs as [|c0 cs]; [intros _ c []|].
    destruct (valid_contours (c0 :: cs)) as [|v vs] eqn:E.
    + intros _ c Hc. destruct (Qlt_le_dec 50 (contourArea c)) as [Hlt|Hle];
        [|exact Hle].
      exfalso. assert (Hin : In c (valid_contours (c0 :: cs)))
        by (apply valid_contours_spec; auto).
      rewrite E in Hin. exact Hin.
    + intro H. exfalso.
      destruct (best_contour_total d (v :: vs) ltac:(discriminate))
        as (b & Hb & _). congruence.
  - intro Hall. destruct cs as [|c0 cs]; [reflexivity|].
    destruct (valid_contours (c0 :: cs)) as [|v vs] eqn:E; [reflexivity|].
    exfalso. assert (Hin : In v (valid_contours (c0 :: cs)))
      by (rewrite E; left; reflexivity).
    apply valid_contours_spec in Hin. destruct Hin as [Hin Hlt].
    pose proof (Hall v Hin). lra.
Qed.

(** X4.  The blob a frame is tracked by is always one of the frame's own
    contours with area above 50; the frame is published lost exactly when
    no contour has area above 50 or the selected one has [m00 <= 0]. *)
Theorem tracked_blob_comes_from_frame :
  (forall d cs b,
      selected d cs = Some b -> In b cs /\ 50 < contourArea b) /\
  (forall d cs,
      is_line_lost (_process d cs) = true <->
      (forall c, In c cs -> contourArea c <= 50) \/
      (exists b, selected d cs = Some b /\ m00 b <= 0)).
Proof.
  split; [apply selected_member|].
  intros d cs.
  destruct (process_cases d cs) as [(best & Hs & Hm & ->) | [Hwhy ->]]; cbn.
  - split; [discriminate|].
    intros [Hall | (b & Hb & Hle)].
    + apply selected_none with (d := d) in Hall. congruence.
    + rewrite Hs in Hb. injection Hb as <-. lra.
  - split; [|reflexivity]. intros _.
    destruct Hwhy as [Hnone | Hbad]; [left | right; exact Hbad].
    apply (selected_none d). exact Hnone.
Qed.

Lemma tracked_blob_comes_from_frame_witness :
  In near_blob [far_blob; near_blob] /\ 50 < contourArea near_blob.
Proof.
  exact (proj1 tracked_blob_comes_from_frame tracking_detector
               [far_blob; near_blob] near_blob eq_refl).
Defined.









Lemma score_power_zero l c : score 0 l c == contourArea c.
Proof. unfold score. cbn. field. Qed.

(** X7.  With [continuity_power = 0] the distance to the previous centre
    plays no role: among the contours with area >= 100 and [m00 <> 0]
    selection returns one of largest area, even with a non-empty history. *)
Theorem zero_power_selects_largest :
  forall d cs,
    _continuity_power d = 0%Z ->
    (exists c, In c cs /\ 100 <= contourArea c /\ ~ m00 c == 0) ->
    exists b,
      _best_contour d cs = Some b /\ In b cs /\
      forall c,
        In c cs -> 100 <= contourArea c -> ~ m00 c == 0 ->
        contourArea c <= contourArea b.
Proof.
  intros d cs Hp (c0 & Hc0 & Ha0 & Hm0).
  unfold _best_contour. rewrite Hp.
  destruct (py_last (_prev_centers d)) as [l|].
  - destruct (scan_selects_maximum 0 l cs) as (b & Hs & Hin & Hel & Hmax).
    { exists c0. split; [exact Hc0|]. apply eligible_spec. auto. }
    rewrite Hs. exists b. split; [reflexivity|]. split; [exact Hin|].
    intros c Hc Ha Hm.
    pose proof (Hmax c Hc (proj2 (eligible_spec c) (conj Ha Hm))) as H.
    rewrite !score_power_zero in H. exact H.
  - destruct (max_by_area_largest cs) as (b & Hb & Hin & Hmax).
    { intro E. rewrite E in Hc0. exact Hc0. }
    exists b. split; [exact Hb|]. split; [exact Hin|].
    intros c Hc _ _. apply Hmax. exact Hc.
Qed.

Lemma zero_power_selects_largest_witness :
  exists b,
    _best_contour (update_continuity_power tracking_detector 0)
                  [far_blob; near_blob] = Some b /\
    In b [far_blob; near_blob] /\
    forall c,
      In c [far_blob; near_blob] -> 100 <= contourArea c -> ~ m00 c == 0 ->
      contourArea c <= contourArea b.
Proof.
  refine (zero_power_selects_largest
            (update_continuity_power tracking_detector 0)
            [far_blob; near_blob] eq_refl _).
  exists far_blob. split; [left; reflexivity|].
  split; [unfold Qle; simpl; lia|].
  intro H. vm_compute in H. discriminate H.
Defined.

(** X8.  The debug image is replaced only by frames handled less than the
    liveness window after the last request: a frame handled later leaves
    [get_debug_frame] as it was, one handled inside the window makes it
    return that frame's image; and once an image has been published the
    getter never goes back to [None]. *)
Theorem debug_frame_liveness (J : Type) :
  (forall (k : DebugSink J) now jpeg,
      _DEBUG_TIMEOUT k <= now - _debug_request_ts k ->
      process_debug k now jpeg = k) /\
  (forall (k : DebugSink J) t now jpeg,
      now - t < _DEBUG_TIMEOUT k ->
      get_debug_frame (process_debug (request_debug_frame k t) now jpeg)
      = Some jpeg) /\
  (forall (k : DebugSink J) frames,
      get_debug_frame k <> None ->
      get_debug_frame (process_debug_all k frames) <> None) /\
  (forall (k : DebugSink J) frames,
      Forall (fun f => _DEBUG_TIMEOUT k <= fst f - _debug_request_ts k) frames ->
      process_debug_all k frames = k).
Proof.
  split; [|split; [|split]].
  - intros k now jpeg H. unfold process_debug.
    apply Qltb_ge in H. rewrite H. reflexivity.
  - intros k t now jpeg H. unfold process_debug, request_debug_frame; cbn.
    apply Qltb_lt in H. rewrite H. reflexivity.
  - intros k frames. revert k.
    induction frames as [|f frames IH]; intros k H; [exact H|].
    cbn [process_debug_all fold_left]. apply IH.
    unfold process_debug.
    destruct (Qltb (fst f - _debug_request_ts k) (_DEBUG_TIMEOUT k));
      [cbn; discriminate | exact H].
  - intros k frames H.
    induction frames as [|f frames IH]; [reflexivity|].
    inversion H as [|f' fs' Hf Hfs]; subst.
    cbn [process_debug_all fold_left]. unfold process_debug at 2.
    apply Qltb_ge in Hf. rewrite Hf. apply IH. exact Hfs.
Qed.

Lemma debug_frame_liveness_witness :
  get_debug_frame
    (process_debug (request_debug_frame (mkSink (Some 7%nat) 0 3) 10) 12 8%nat)
  = Some 8%nat /\
  process_debug (mkSink (Some 7%nat) 10 3) 13 8%nat = mkSink (Some 7%nat) 10 3.
Proof.
  destruct (debug_frame_liveness nat) as (Hlate & Hlive & _).
  split.
  - apply Hlive. reflexivity.
  - apply Hlate. unfold Qle; simpl; lia.
Defined.

End DetectorExtra.

(** ** Wheel drivers and servo *)

Section WheelFacts.
Import Wheels.

Ltac qltb_cases :=
  repeat match goal with
  | H : Qltb _ _ = true |- _ => apply Qltb_lt in H
  | H : Qltb _ _ = false |- _ => apply Qltb_ge in H
  end.

Lemma clamp_inside v lo hi : lo <= v -> v <= hi -> clamp v lo hi == v.
Proof.
  intros Hlo Hhi. unfold clamp, py_max, py_min.
  destruct (Qltb v hi) eqn:E1;
    [destruct (Qltb lo v) eqn:E2 | destruct (Qltb lo hi) eqn:E2];
    qltb_cases; lra.
Qed.

Lemma clamp_below v lo hi : lo <= hi -> v <= lo -> clamp v lo hi == lo.
Proof.
  intros Hb Hv. unfold clamp, py_max, py_min.
  destruct (Qltb v hi) eqn:E1;
    [destruct (Qltb lo v) eqn:E2 | destruct (Qltb lo hi) eqn:E2];
    qltb_cases; lra.
Qed.

Lemma clamp_above v lo hi : lo <= hi -> hi <= v -> clamp v lo hi == hi.
Proof.
  intros Hb Hv. unfold clamp, py_max, py_min.
  destruct (Qltb v hi) eqn:E1;
    [destruct (Qltb lo v) eqn:E2 | destruct (Qltb lo hi) eqn:E2];
    qltb_cases; lra.
Qed.

Lemma clamp_monotone a b lo hi :
  lo <= hi -> a <= b -> clamp a lo hi <= clamp b lo hi.
Proof.
  intros Hb Hab.
  destruct (Qlt_le_dec a lo) as [Ha|Ha].
  - rewrite (clamp_below a lo hi Hb ltac:(lra)).
    apply (clamp_bounds b lo hi Hb).
  - destruct (Qlt_le_dec hi b) as [Hb'|Hb'].
    + rewrite (clamp_above b lo hi Hb ltac:(lra)).
      apply (clamp_bounds a lo hi Hb).
    + rewrite (clamp_inside a lo hi Ha ltac:(lra)).
      rewrite (clamp_inside b lo hi ltac:(lra) Hb'). exact Hab.
Qed.

Lemma clamp_sign v m :
  0 < m ->
  (0 < clamp v (- m) m <-> 0 < v) /\ (clamp v (- m) m < 0 <-> v < 0).
Proof.
  intro Hm.
  destruct (Qlt_le_dec v (- m)) as [H1|H1].
  - rewrite (clamp_below v (- m) m ltac:(lra) ltac:(lra)). split; split; lra.
  - destruct (Qlt_le_dec m v) as [H2|H2].
    + rewrite (clamp_above v (- m) m ltac:(lra) ltac:(lra)). split; split; lra.
    + rewrite (clamp_inside v (- m) m H1 H2). split; reflexivity.
Qed.

Lemma set_wheel_levels :
  forall inversion speed,
    let c := _set_wheel inversion speed in
    let v := speed * inject_Z inversion in
    0 <= duty c <= 100 /\
    (in1 c && in2 c = false) /\
    (in1 c = true <-> 0 < v) /\
    (in2 c = true <-> v < 0) /\
    (v == 0 -> coasting c) /\
    (Qabs v <= 100 -> duty c == Qabs v).
Proof.
  intros inversion speed. cbv zeta. unfold _set_wheel, coasting.
  set (v := speed * inject_Z inversion).
  pose proof (clamp_bounds v (-100) 100 ltac:(lra)) as [Hlo Hhi].
  destruct (clamp_sign v 100 ltac:(lra)) as [Hpos Hneg].
  change (- (100)) with (-100) in Hpos, Hneg.
  assert (Hduty : 0 <= Qabs (clamp v (-100) 100) <= 100).
  { split; [apply Qabs_nonneg|]. apply Qabs_Qle_condition. split; assumption. }
  assert (Hid : Qabs v <= 100 -> Qabs (clamp v (-100) 100) == Qabs v).
  { intro H. apply Qabs_Qle_condition in H. destruct H as [H1 H2].
    rewrite (clamp_inside v (-100) 100 H1 H2). reflexivity. }
  destruct (Qltb 0 (clamp v (-100) 100)) eqn:E1; cbn [in1 in2 duty andb].
  - apply Qltb_lt in E1. pose proof (proj1 Hpos E1).
    repeat split; try apply Hduty; try assumption; try reflexivity;
      try discriminate; intros; try lra.
  - apply Qltb_ge in E1.
    destruct (Qltb (clamp v (-100) 100) 0) eqn:E2; cbn [in1 in2 duty andb].
    + apply Qltb_lt in E2. pose proof (proj1 Hneg E2).
      repeat split; try apply Hduty; try assumption; try reflexivity;
        try discriminate; intros; try lra.
    + apply Qltb_ge in E2.
      assert (H0 : clamp v (-100) 100 == 0) by lra.
      assert (Hv : v == 0).
      { destruct (Qlt_le_dec 0 v) as [H|H]; [apply Hpos in H; lra|].
        destruct (Qlt_le_dec v 0) as [H'|H']; [apply Hneg in H'; lra|]. lra. }
      repeat split; try apply Hduty; try reflexivity; try discriminate;
        intros; try lra.
      rewrite H0. reflexivity.
Qed.

Lemma clamp_compat v v' lo hi :
  lo <= hi -> v == v' -> clamp v lo hi == clamp v' lo hi.
Proof.
  intros Hb Hv. apply Qle_antisym; apply clamp_monotone; lra.
Qed.

Lemma set_wheel_compat inv inv' s s' :
  s * inject_Z inv == s' * inject_Z inv' ->
  in1 (_set_wheel inv s) = in1 (_set_wheel inv' s') /\
  in2 (_set_wheel inv s) = in2 (_set_wheel inv' s') /\
  duty (_set_wheel inv s) == duty (_set_wheel inv' s').
Proof.
  intro H.
  destruct (set_wheel_levels inv s) as (_ & _ & H1 & H2 & _).
  destruct (set_wheel_levels inv' s') as (_ & _ & H1' & H2' & _).
  cbv zeta in *.
  assert (Hd : duty (_set_wheel inv s) == duty (_set_wheel inv' s')).
  { assert (Hc := clamp_compat _ _ (-100) 100 ltac:(lra) H).
    unfold _set_wheel.
    destruct (Qltb 0 (clamp (s * inject_Z inv) (-100) 100));
      [|destruct (Qltb (clamp (s * inject_Z inv) (-100) 100) 0)];
      (destruct (Qltb 0 (clamp (s' * inject_Z inv') (-100) 100));
       [|destruct (Qltb (clamp (s' * inject_Z inv') (-100) 100) 0)]);
      cbn [duty]; rewrite Hc; reflexivity. }
  split; [|split; [|exact Hd]].
  - destruct (in1 (_set_wheel inv s)), (in1 (_set_wheel inv' s'));
      try reflexivity; exfalso.
    + assert (0 < s * inject_Z inv) by (apply H1; reflexivity).
      assert (true = false) by (symmetry; apply H1'; lra). discriminate.
    + assert (0 < s' * inject_Z inv') by (apply H1'; reflexivity).
      assert (false = true) by (apply H1; lra). discriminate.
  - destruct (in2 (_set_wheel inv s)), (in2 (_set_wheel inv' s'));
      try reflexivity; exfalso.
    + assert (s * inject_Z inv < 0) by (apply H2; reflexivity).
      assert (true = false) by (symmetry; apply H2'; lra). discriminate.
    + assert (s' * inject_Z inv' < 0) by (apply H2'; reflexivity).
      assert (false = true) by (apply H2; lra). discriminate.
Qed.

(** X9.  Whatever speed is requested and whatever the inversion factor, a
    wheel gets a duty cycle in [0, 100], its two direction pins are never
    both high, and the pins encode the sign of [speed * inversion]: forward
    when positive, backward when negative, both low when zero.  A channel
    wired with inversion -1 is driven exactly as an uninverted one given the
    opposite speed. *)
Theorem set_wheel_drive_levels :
  forall inversion speed,
    let c := _set_wheel inversion speed in
    let v := speed * inject_Z inversion in
    (0 <= duty c <= 100 /\
     (in1 c && in2 c = false) /\
     (in1 c = true <-> 0 < v) /\
     (in2 c = true <-> v < 0) /\
     (v == 0 -> coasting c) /\
     (Qabs v <= 100 -> duty c == Qabs v)) /\
    (in1 (_set_wheel (-1) speed) = in1 (_set_wheel 1 (- speed)) /\
     in2 (_set_wheel (-1) speed) = in2 (_set_wheel 1 (- speed)) /\
     duty (_set_wheel (-1) speed) == duty (_set_wheel 1 (- speed))).
Proof.
  intros inversion speed. cbv zeta. split.
  - apply set_wheel_levels.
  - apply set_wheel_compat. unfold inject_Z. ring.
Qed.

Lemma set_wheel_drive_levels_witness :
  Qabs (40 * inject_Z (-1)) <= 100 /\
  duty (_set_wheel (-1) 40) == Qabs (40 * inject_Z (-1)).
Proof.
  assert (H : Qabs (40 * inject_Z (-1)) <= 100) by (unfold Qle; simpl; lia).
  split; [exact H|].
  destruct (set_wheel_drive_levels (-1) 40) as ((_ & _ & _ & _ & _ & Hd) & _).
  exact (Hd H).
Defined.

(** X10.  A servo command always leaves the stored angle within the
    configured limits, over any sequence of commands; a command with
    [settle_time = 0] keeps the PWM at [2 + angle / 18], which lies in
    [2, 12] for limits within 0..180, and one with a positive settle time
    sleeps that long and then releases the PWM. *)
Theorem servo_stays_within_limits :
  (forall s calls,
      _servo_min s <= _servo_max s -> calls <> [] ->
      let s' := fold_left servo_step calls s in
      _servo_min s <= _servo_angle s' <= _servo_max s) /\
  (forall s angle,
      0 <= _servo_min s -> _servo_min s <= _servo_max s ->
      _servo_max s <= 180 ->
      let r := set_servo s angle (Some 0) in
      snd r = None /\
      servo_duty (fst r) = 2 + _servo_angle (fst r) / 18 /\
      2 <= servo_duty (fst r) <= 12) /\
  (forall s angle t,
      0 < t ->
      let r := set_servo s angle (Some t) in
      snd r = Some t /\ servo_duty (fst r) = 0).
Proof.
  assert (Hstep : forall s c,
             _servo_min s <= _servo_max s ->
             _servo_min (servo_step s c) = _servo_min s /\
             _servo_max (servo_step s c) = _servo_max s /\
             _servo_min s <= _servo_angle (servo_step s c) <= _servo_max s).
  { intros s c Hb.
    destruct c as [a t | t | d t | d t];
      unfold servo_step, servo_center, servo_left, servo_right, set_servo;
      match goal with
      | |- context [Qltb 0 ?x] => destruct (Qltb 0 x)
      end; cbn; (split; [reflexivity|]; split; [reflexivity|]);
      apply clamp_bounds; exact Hb. }
  split; [|split].
  - intros s calls Hb Hne. cbv zeta.
    induction calls as [|c calls IH] using rev_ind; [congruence|].
    rewrite fold_left_app. cbn [fold_left].
    assert (Hinv : forall cs,
               _servo_min (fold_left servo_step cs s) = _servo_min s /\
               _servo_max (fold_left servo_step cs s) = _servo_max s).
    { induction cs as [|c' cs IH'] using rev_ind; [split; reflexivity|].
      rewrite fold_left_app. cbn [fold_left]. destruct IH' as [H1 H2].
      destruct (Hstep (fold_left servo_step cs s) c') as (H3 & H4 & _).
      - rewrite H1, H2. exact Hb.
      - rewrite H3, H4. split; assumption. }
    destruct (Hinv calls) as [H1 H2].
    destruct (Hstep (fold_left servo_step calls s) c) as (_ & _ & H).
    + rewrite H1, H2. exact Hb.
    + rewrite H1, H2 in H. exact H.
  - intros s angle H0 Hb H180. cbv zeta. unfold set_servo. cbn.
    pose proof (clamp_bounds angle (_servo_min s) (_servo_max s) Hb) as [Hlo Hhi].
    set (a := clamp angle (_servo_min s) (_servo_max s)) in *.
    assert (Ha : a == 18 * (a / 18)) by field.
    repeat split; lra.
  - intros s angle t Ht. cbv zeta. unfold set_servo.
    apply Qltb_lt in Ht. rewrite Ht. split; reflexivity.
Qed.

Lemma servo_stays_within_limits_witness :
  let s := mkServo 20 90 160 (3 # 10) 90 0 in
  _servo_min s <= _servo_angle (fold_left servo_step [ServoLeft 200 (Some 0)] s)
               <= _servo_max s.
Proof.
  cbv zeta.
  refine (proj1 servo_stays_within_limits (mkServo 20 90 160 (3 # 10) 90 0)
            [ServoLeft 200 (Some 0)] _ _).
  - unfold Qle; simpl; lia.
  - discriminate.
Defined.

End WheelFacts.

(** ** More on the supervisor *)

Section SupervisorExtra.
Import Robot Scenario Wheels Faults.

Ltac qltb_cases :=
  repeat match goal with
  | H : Qltb _ _ = true |- _ => apply Qltb_lt in H
  | H : Qltb _ _ = false |- _ => apply Qltb_ge in H
  end.

Ltac run_robot :=
  unfold iteration, try_except, branch, _handle_search, _handle_follow,
    _handle_right_angle, on_exception, right_angle_left, right_angle_right,
    turn_left, turn_right, curve, set_speed, stop, Robot.set_motors, sleep,
    set_state, set_pid, set_search_dir, set_search_start, pid_reset,
    pid_compute, monotonic, bind, get, ret.

Lemma py_min_monotone a b c : a <= b -> py_min a c <= py_min b c.
Proof.
  intro H. unfold py_min.
  destruct (Qltb c a) eqn:E1; destruct (Qltb c b) eqn:E2; qltb_cases; lra.
Qed.

Lemma adaptive_speed_clamp eng a :
  _adaptive_speed eng a =
  clamp (max_speed eng
         - py_min (a / 100) 1 * (max_speed eng - min_speed eng))
        (min_speed eng) (max_speed eng).
Proof. reflexivity. Qed.

(** X11.  With [min_speed <= max_speed] the adaptive speed always lies
    between the two, is [max_speed] for zero steering, [min_speed] once
    [|steering|] reaches 100, and never increases when [|steering|] grows. *)
Theorem adaptive_speed_profile :
  forall eng,
    min_speed eng <= max_speed eng ->
    (forall a, min_speed eng <= _adaptive_speed eng a <= max_speed eng) /\
    _adaptive_speed eng 0 == max_speed eng /\
    (forall a, 100 <= a -> _adaptive_speed eng a == min_speed eng) /\
    (forall a b, a <= b -> _adaptive_speed eng b <= _adaptive_speed eng a).
Proof.
  intros eng Hb. split; [|split; [|split]].
  - intro a. rewrite adaptive_speed_clamp. apply clamp_bounds. exact Hb.
  - rewrite adaptive_speed_clamp.
    assert (H0 : py_min (0 / 100) 1 == 0).
    { unfold py_min. destruct (Qltb 1 (0 / 100)) eqn:E; qltb_cases; [|reflexivity].
      exfalso. revert E. unfold Qlt; simpl; lia. }
    rewrite (clamp_compat _ (max_speed eng) _ _ Hb);
      [apply clamp_inside; lra | rewrite H0; ring].
  - intros a Ha. rewrite adaptive_speed_clamp.
    assert (H1 : py_min (a / 100) 1 == 1).
    { unfold py_min. destruct (Qltb 1 (a / 100)) eqn:E; qltb_cases; [reflexivity|].
      assert (Hq : a == 100 * (a / 100)) by field. lra. }
    rewrite (clamp_compat _ (min_speed eng) _ _ Hb);
      [apply clamp_inside; lra | rewrite H1; ring].
  - intros a b Hab. rewrite !adaptive_speed_clamp.
    apply clamp_monotone; [exact Hb|].
    assert (Hf : py_min (a / 100) 1 <= py_min (b / 100) 1).
    { apply py_min_monotone.
      assert (Hqa : a == 100 * (a / 100)) by field.
      assert (Hqb : b == 100 * (b / 100)) by field. lra. }
    assert (Hd : 0 <= max_speed eng - min_speed eng) by lra.
    pose proof (Qmult_le_compat_r _ _ _ Hf Hd). lra.
Qed.

Lemma adaptive_speed_profile_witness :
  min_speed engines <= max_speed engines /\
  _adaptive_speed engines 0 == max_speed engines.
Proof.
  assert (H : min_speed engines <= max_speed engines)
    by (unfold Qle; simpl; lia).
  split; [exact H|].
  exact (proj1 (proj2 (adaptive_speed_profile engines H))).
Defined.

Lemma clamp_compat_any v v' lo hi : v == v' -> clamp v lo hi == clamp v' lo hi.
Proof.
  intro Hv. destruct (Qlt_le_dec hi lo) as [H|H].
  - rewrite !clamp_inverted by exact H. reflexivity.
  - apply clamp_compat; assumption.
Qed.

Lemma clamp_negated v m : 0 <= m -> clamp (- v) (- m) m == - clamp v (- m) m.
Proof.
  intro Hm.
  destruct (Qlt_le_dec v (- m)) as [H1|H1].
  - rewrite (clamp_below v (- m) m ltac:(lra) ltac:(lra)).
    rewrite (clamp_above (- v) (- m) m ltac:(lra) ltac:(lra)). ring.
  - destruct (Qlt_le_dec m v) as [H2|H2].
    + rewrite (clamp_above v (- m) m ltac:(lra) ltac:(lra)).
      rewrite (clamp_below (- v) (- m) m ltac:(lra) ltac:(lra)). reflexivity.
    + rewrite (clamp_inside v (- m) m H1 H2).
      rewrite (clamp_inside (- v) (- m) m ltac:(lra) ltac:(lra)). reflexivity.
Qed.

Lemma curve_effects w speed steering :
  next_ok w = true ->
  let eng := _engines w in
  let sp := clamp speed (-100) 100 in
  let st := clamp steering (-100) 100 in
  let l := clamp (sp + st) (min_turn_speed eng) (max_speed eng) in
  let r := clamp (sp - st) (min_turn_speed eng) (max_speed eng) in
  snd (curve speed steering w) = Ok tt /\
  trace (fst (curve speed steering w)) = trace w ++ [SetMotors l r l r].
Proof.
  intro Hok. unfold next_ok in Hok. cbv zeta.
  unfold curve, set_speed, Robot.set_motors, bind, get. cbn.
  destruct (faults w) as [|[] fs]; try discriminate; cbn; split; reflexivity.
Qed.

(** X12.  [curve] is mirror-symmetric: negating the steering swaps the
    commands of the two sides, zero steering commands both sides alike, and
    with [min_turn_speed <= max_speed] both commands lie in
    [min_turn_speed, max_speed] whatever speed and steering are asked. *)
Theorem curve_mirror :
  forall w speed steering,
    next_ok w = true ->
    exists l r l' r',
      trace (fst (curve speed steering w)) = trace w ++ [SetMotors l r l r] /\
      trace (fst (curve speed (- steering) w))
        = trace w ++ [SetMotors l' r' l' r'] /\
      l' == r /\ r' == l /\
      (steering == 0 -> l == r) /\
      (min_turn_speed (_engines w) <= max_speed (_engines w) ->
       min_turn_speed (_engines w) <= l <= max_speed (_engines w) /\
       min_turn_speed (_engines w) <= r <= max_speed (_engines w)).
Proof.
  intros w speed steering Hok.
  destruct (curve_effects w speed steering Hok) as [_ H1].
  destruct (curve_effects w speed (- steering) Hok) as [_ H2].
  cbv zeta in H1, H2.
  do 4 eexists. split; [exact H1|]. split; [exact H2|].
  pose proof (clamp_negated steering 100 ltac:(lra)) as Hn.
  change (- (100)) with (-100) in Hn.
  split; [|split; [|split]].
  - apply clamp_compat_any. rewrite Hn. ring.
  - apply clamp_compat_any. rewrite Hn. ring.
  - intro Hz. apply clamp_compat_any.
    rewrite (clamp_compat steering 0 (-100) 100 ltac:(lra) Hz).
    rewrite (clamp_inside 0 (-100) 100 ltac:(lra) ltac:(lra)). ring.
  - intro Hb. split; apply clamp_bounds; exact Hb.
Qed.

Lemma curve_mirror_witness :
  exists l r l' r',
    trace (fst (curve 40 25 (robot []))) = [SetMotors l r l r] /\
    trace (fst (curve 40 (- (25)) (robot []))) = [SetMotors l' r' l' r'] /\
    l' == r /\ r' == l /\
    min_turn_speed engines <= l <= max_speed engines.
Proof.
  destruct (curve_mirror (robot []) 40 25 eq_refl)
    as (l & r & l' & r' & H1 & H2 & H3 & H4 & _ & Hb).
  exists l, r, l', r'. repeat split; try assumption;
    apply Hb; unfold Qle; simpl; lia.
Defined.

Lemma follow_effects w r :
  takes_follow w r -> next_ok w = true ->
  let p0 := if mode_eqb (mode (_state w)) following then _pid w
            else PID.reset (_pid w) in
  let out := PID.compute p0 (clock w) (seen_error r) in
  let eng := _engines w in
  let v := _adaptive_speed eng (Qabs (snd out)) in
  let w' := fst (iteration r w) in
  snd (iteration r w) = Ok tt /\
  _pid w' = fst out /\
  _state w' = mkState following (seen_error r) (snd out) v
                      (running (_state w)) /\
  trace w' =
    trace w ++
    [SetMotors
       (clamp (clamp v (-100) 100 + clamp (snd out) (-100) 100)
              (min_turn_speed eng) (max_speed eng))
       (clamp (clamp v (-100) 100 - clamp (snd out) (-100) 100)
              (min_turn_speed eng) (max_speed eng))
       (clamp (clamp v (-100) 100 + clamp (snd out) (-100) 100)
              (min_turn_speed eng) (max_speed eng))
       (clamp (clamp v (-100) 100 - clamp (snd out) (-100) 100)
              (min_turn_speed eng) (max_speed eng))] /\
  _search_dir w' =
    (if negb (Qeqb (seen_error r) 0)
     then (if Qltb 0 (seen_error r) then 1 else -1)%Z
     else _search_dir w) /\
  _search_start w' = None /\
  clock w' = clock w /\
  faults w' = tl (faults w) /\
  _engines w' = _engines w /\ _search_time w' = _search_time w /\
  _ra_enabled w' = _ra_enabled w /\ _running w' = _running w.
Proof.
  intros [Hra Hlost] Hok. unfold next_ok in Hok.
  run_robot. cbn. rewrite Hra, Hlost. cbn.
  destruct (mode_eqb (mode (_state w)) following); cbn;
    destruct (faults w) as [|[] fs]; try discriminate; cbn;
    destruct (Qeqb (seen_error r) 0); cbn;
    repeat split; reflexivity.
Qed.

(** X13.  A following iteration always publishes a steering value in
    [-100, 100]; with [min_speed <= max_speed] the published speed lies
    between them, and with [min_turn_speed <= max_speed] both wheel-side
    commands lie in [min_turn_speed, max_speed]. *)
Theorem follow_outputs_bounded :
  forall w r,
    takes_follow w r -> next_ok w = true ->
    let w' := fst (iteration r w) in
    let eng := _engines w in
    -100 <= steering (_state w') <= 100 /\
    (min_speed eng <= max_speed eng ->
     min_speed eng <= speed (_state w') <= max_speed eng) /\
    (min_turn_speed eng <= max_speed eng ->
     exists l r',
       trace w' = trace w ++ [SetMotors l r' l r'] /\
       min_turn_speed eng <= l <= max_speed eng /\
       min_turn_speed eng <= r' <= max_speed eng).
Proof.
  intros w r Hf Hok. cbv zeta.
  destruct (follow_effects w r Hf Hok) as (_ & _ & Hst & Htr & _).
  cbv zeta in Hst, Htr. rewrite Hst. cbn [steering speed].
  split; [apply compute_with_output_range|]. split.
  - intro Hb. rewrite adaptive_speed_clamp. apply clamp_bounds. exact Hb.
  - intro Hb. eexists. eexists. split; [exact Htr|].
    split; apply clamp_bounds; exact Hb.
Qed.

Lemma follow_outputs_bounded_witness :
  min_speed (_engines (robot [])) <= max_speed (_engines (robot [])) /\
  min_speed (_engines (robot []))
    <= speed (_state (fst (iteration found_reading (robot []))))
    <= max_speed (_engines (robot [])).
Proof.
  assert (H : min_speed (_engines (robot [])) <= max_speed (_engines (robot [])))
    by (unfold Qle; simpl; lia).
  split; [exact H|].
  refine (proj1 (proj2 (follow_outputs_bounded (robot []) found_reading _ _)) H).
  - split; reflexivity.
  - reflexivity.
Defined.

(** X14.  Re-entering the following branch from any other mode discards the
    PID memory: the steering published is what a freshly constructed
    controller with the current gains returns for the error.  While the mode
    stays "following" the controller state is carried from call to call. *)
Theorem follow_pid_memory :
  forall w r,
    takes_follow w r -> next_ok w = true ->
    let p := _pid w in
    let fresh :=
      PID.init (PID.kp p) (PID.ki p) (PID.kd p) (PID.dead_zone p)
               (PID.max_integral p) in
    let w' := fst (iteration r w) in
    (mode (_state w) <> following ->
     steering (_state w') = snd (PID.compute fresh (clock w) (seen_error r)) /\
     _pid w' = fst (PID.compute fresh (clock w) (seen_error r))) /\
    (mode (_state w) = following ->
     steering (_state w') = snd (PID.compute p (clock w) (seen_error r)) /\
     _pid w' = fst (PID.compute p (clock w) (seen_error r))).
Proof.
  intros w r Hf Hok. cbv zeta.
  destruct (follow_effects w r Hf Hok) as (_ & Hpid & Hst & _).
  cbv zeta in Hpid, Hst. rewrite Hpid, Hst. cbn [steering].
  split; intro Hm.
  - assert (E : mode_eqb (mode (_state w)) following = false)
      by (destruct (mode (_state w)); try reflexivity; congruence).
    rewrite E. split; reflexivity.
  - rewrite Hm. cbn [mode_eqb]. split; reflexivity.
Qed.

Lemma follow_pid_memory_witness :
  let w := fst (iteration lost_reading (robot [])) in
  mode (_state w) <> following /\
  steering (_state (fst (iteration found_reading w)))
  = snd (PID.compute (PID.init 1 0 0 0 100) (clock w) 10).
Proof.
  cbv zeta.
  assert (H : mode (_state (fst (iteration lost_reading (robot []))))
              <> following) by (vm_compute; discriminate).
  split; [exact H|].
  refine (proj1 (proj1 (follow_pid_memory
                          (fst (iteration lost_reading (robot [])))
                          found_reading _ _) H)).
  - split; reflexivity.
  - reflexivity.
Defined.

Lemma search_effects w r :
  takes_search w r -> next_ok w = true ->
  let t0 := match _search_start w with Some t => t | None => clock w end in
  clock w - t0 <= _search_time w ->
  let v := search_turn_speed (_engines w) in
  let w' := fst (iteration r w) in
  snd (iteration r w) = Ok tt /\
  trace w' =
    trace w ++
    [if (0 <? _search_dir w)%Z then SetMotors v (- v) v (- v)
     else SetMotors (- v) v (- v) v] /\
  _state w' = mkState searching (seen_error r)
                      (inject_Z (_search_dir w) * v) 0
                      (running (_state w)) /\
  _search_start w' = Some t0 /\
  _search_dir w' = _search_dir w /\
  clock w' = clock w.
Proof.
  intros [Hra Hlost] Hok t0 Hin. subst t0. unfold next_ok in Hok.
  apply Qltb_ge in Hin.
  run_robot. cbn. rewrite Hra, Hlost. cbn.
  destruct (_search_start w) as [t|] eqn:Hs; cbn; rewrite ?Hs; cbn;
    rewrite Hin; cbn;
    destruct (0 <? _search_dir w)%Z; cbn;
    destruct (faults w) as [|[] fs]; try discriminate; cbn;
    repeat split; try reflexivity; exact Hs.
Qed.

Lemma search_entry_mode w r :
  takes_search w r -> faults w = [] -> _search_start w = None ->
  mode (_state (fst (iteration r w))) =
    if Qltb (_search_time w) (clock w - clock w) then stopped else searching.
Proof.
  intros [Hra Hlost] Hfl Hstart.
  run_robot. cbn. rewrite Hra, Hlost, Hstart. cbn.
  destruct (Qltb (_search_time w) (clock w - clock w)); cbn.
  - destruct (faults w) as [|b fs]; [reflexivity | discriminate].
  - destruct (0 <? _search_dir w)%Z; cbn;
      (destruct (faults w) as [|b fs]; [reflexivity | discriminate]).
Qed.

(** X15.  The side on which the line was last seen steers the recovery.
    After a following iteration, a lost-line iteration either times out at
    once (mode "stopped") or publishes mode "searching"; in that case it
    has made the robot rotate on the spot toward the side of the last
    error: right (left wheels forward, right wheels backward at the search
    speed) after a positive error, left after a negative one.  A zero error
    leaves the remembered side unchanged. *)
Theorem search_turns_toward_last_side :
  forall w r1 r2 wait,
    takes_follow w r1 -> takes_search w r2 -> faults w = [] ->
    let v := search_turn_speed (_engines w) in
    let w1 := fst (iteration r1 w) in
    let w2 := fst (iteration r2 (advance wait w1)) in
    (mode (_state w2) = searching \/ mode (_state w2) = stopped) /\
    (mode (_state w2) = searching ->
     (0 < seen_error r1 ->
      trace w2 = trace w1 ++ [SetMotors v (- v) v (- v)] /\
      steering (_state w2) == v) /\
     (seen_error r1 < 0 ->
      trace w2 = trace w1 ++ [SetMotors (- v) v (- v) v] /\
      steering (_state w2) == - v)) /\
    (seen_error r1 == 0 -> _search_dir w1 = _search_dir w).
Proof.
  intros w r1 r2 wait Hf [Hra2 Hl2] Hfl. cbv zeta.
  assert (Hok : next_ok w = true) by (unfold next_ok; rewrite Hfl; reflexivity).
  destruct (follow_effects w r1 Hf Hok)
    as (_ & _ & _ & _ & Hdir & Hstart & _ & Hfl1 & Heng & Htime & Hen & _).
  cbv zeta in *. rewrite Hfl in Hfl1. cbn in Hfl1.
  set (w1 := fst (iteration r1 w)) in *.
  assert (Hs : takes_search (advance wait w1) r2)
    by (split; [cbn; rewrite Hen; exact Hra2 | exact Hl2]).
  assert (Hok1 : next_ok (advance wait w1) = true)
    by (unfold next_ok; cbn; rewrite Hfl1; reflexivity).
  pose proof (search_entry_mode (advance wait w1) r2 Hs Hfl1 Hstart) as Hmode.
  cbn [advance clock _search_time] in Hmode. rewrite Htime in Hmode.
  pose proof (search_effects (advance wait w1) r2 Hs Hok1) as He.
  cbv zeta in He. cbn [_search_start advance clock _search_time _engines
                         _search_dir trace _state] in He.
  rewrite Hstart, Htime, Heng in He.
  split; [|split].
  - rewrite Hmode.
    destruct (Qltb (_search_time w) (clock w1 + wait - (clock w1 + wait)));
      auto.
  - intro Hsearching. rewrite Hmode in Hsearching.
    destruct (Qltb (_search_time w) (clock w1 + wait - (clock w1 + wait)))
      eqn:E; [discriminate|].
    apply Qltb_ge in E. destruct (He E) as (_ & Htr & Hst & _).
    rewrite Hst, Htr, Hdir. cbn [steering].
    split.
    + intro Hpos. assert (Ez : Qeqb (seen_error r1) 0 = false).
      { unfold Qeqb. destruct (Qeq_bool (seen_error r1) 0) eqn:Ez;
          [|reflexivity].
        apply Qeq_bool_iff in Ez. lra. }
      apply Qltb_lt in Hpos. rewrite Ez, Hpos. cbn.
      split; [reflexivity | ring].
    + intro Hneg. assert (Ez : Qeqb (seen_error r1) 0 = false).
      { unfold Qeqb. destruct (Qeq_bool (seen_error r1) 0) eqn:Ez;
          [|reflexivity].
        apply Qeq_bool_iff in Ez. lra. }
      assert (E2 : Qltb 0 (seen_error r1) = false) by (apply Qltb_ge; lra).
      rewrite Ez, E2. cbn. split; [reflexivity | ring].
  - intro Hz. rewrite Hdir.
    assert (Ez : Qeqb (seen_error r1) 0 = true)
      by (apply Qeq_bool_iff; exact Hz).
    rewrite Ez. reflexivity.
Qed.

Lemma search_turns_toward_last_side_witness :
  let w1 := fst (iteration found_reading (robot [])) in
  let w2 := fst (iteration lost_reading (advance 1 w1)) in
  mode (_state w2) = searching /\
  0 < seen_error found_reading /\
  trace w2 = trace w1 ++ [SetMotors 35 (- (35)) 35 (- (35))].
Proof.
  cbv zeta.
  assert (Hm : mode (_state (fst (iteration lost_reading
                 (advance 1 (fst (iteration found_reading (robot [])))))))
               = searching) by reflexivity.
  assert (H : 0 < seen_error found_reading) by reflexivity.
  split; [exact Hm|]. split; [exact H|].
  refine (proj1 (proj1 (proj1 (proj2 (search_turns_toward_last_side (robot [])
                          found_reading lost_reading 1 _ _ _)) Hm) H)).
  - split; reflexivity.
  - split; reflexivity.
  - reflexivity.
Defined.

Lemma set_wheel_zero inv : coasting (_set_wheel inv 0).
Proof.
  destruct (set_wheel_levels inv 0) as (_ & _ & _ & _ & H & _).
  apply H. ring.
Qed.

Lemma replay_ends_stopped k m tr sleeps :
  Forall (fun e => exists t, e = Sleep t) sleeps ->
  let m' := replay k m (tr ++ SetMotors 0 0 0 0 :: sleeps) in
  coasting (front_left m') /\ coasting (front_right m') /\
  coasting (rear_left m') /\ coasting (rear_right m').
Proof.
  intros Hs. cbv zeta. unfold replay. rewrite fold_left_app. cbn [fold_left].
  set (m0 := drive k (fold_left (drive k) tr m) (SetMotors 0 0 0 0)).
  assert (Hm0 : fold_left (drive k) sleeps m0 = m0).
  { generalize m0. induction Hs as [|e es (t & ->) _ IH]; intro x;
      [reflexivity | cbn; apply IH]. }
  rewrite Hm0. subst m0. cbn. repeat split; apply set_wheel_zero.
Qed.

(** X16.  With a non-negative configured turn time, a right-angle iteration
    whose wheel commands are all accepted stops, waits 0.1 s, publishes mode
    "right_angle" with zero steering and speed, turns on the spot toward the
    remembered side at the clamped right-angle speed for the configured
    time, stops again with every wheel coasting, and resets the PID.  It
    leaves the search timer and the remembered side as they were. *)
Theorem right_angle_maneuver :
  forall w r,
    takes_right_angle w r -> faults w = [] ->
    0 <= right_angle_turn_time (_engines w) ->
    let eng := _engines w in
    let v := clamp (right_angle_turn_speed eng) 0 100 in
    let w' := fst (iteration r w) in
    snd (iteration r w) = Ok tt /\
    trace w' =
      trace w ++
      [SetMotors 0 0 0 0; Sleep (1 # 10);
       if (0 <? _search_dir w)%Z then SetMotors v (- v) v (- v)
       else SetMotors (- v) v (- v) v;
       Sleep (right_angle_turn_time eng); SetMotors 0 0 0 0] /\
    _state w' = mkState right_angle (error (_state w)) 0 0
                        (running (_state w)) /\
    _pid w' = PID.reset (_pid w) /\
    _search_start w' = _search_start w /\
    _search_dir w' = _search_dir w /\
    clock w' = clock w + (1 # 10) + right_angle_turn_time eng /\
    (forall k m,
        let m' := replay k m (trace w') in
        coasting (front_left m') /\ coasting (front_right m') /\
        coasting (rear_left m') /\ coasting (rear_right m')).
Proof.
  intros w r Hra Hfl Htime. cbv zeta. unfold takes_right_angle in Hra.
  apply Qltb_ge in Htime.
  assert (Hrun :
    iteration r w =
    (fst (iteration r w), Ok tt) /\
    trace (fst (iteration r w)) =
      trace w ++
      [SetMotors 0 0 0 0; Sleep (1 # 10);
       if (0 <? _search_dir w)%Z
       then SetMotors (clamp (right_angle_turn_speed (_engines w)) 0 100)
                      (- clamp (right_angle_turn_speed (_engines w)) 0 100)
                      (clamp (right_angle_turn_speed (_engines w)) 0 100)
                      (- clamp (right_angle_turn_speed (_engines w)) 0 100)
       else SetMotors (- clamp (right_angle_turn_speed (_engines w)) 0 100)
                      (clamp (right_angle_turn_speed (_engines w)) 0 100)
                      (- clamp (right_angle_turn_speed (_engines w)) 0 100)
                      (clamp (right_angle_turn_speed (_engines w)) 0 100);
       Sleep (right_angle_turn_time (_engines w)); SetMotors 0 0 0 0] /\
    _state (fst (iteration r w)) =
      mkState right_angle (error (_state w)) 0 0 (running (_state w)) /\
    _pid (fst (iteration r w)) = PID.reset (_pid w) /\
    _search_start (fst (iteration r w)) = _search_start w /\
    _search_dir (fst (iteration r w)) = _search_dir w /\
    clock (fst (iteration r w))
      = clock w + (1 # 10) + right_angle_turn_time (_engines w)).
  { run_robot. cbn. rewrite Hra. cbn. rewrite Hfl. cbn.
    destruct (0 <? _search_dir w)%Z; cbn; rewrite Htime; cbn;
      repeat rewrite <- app_assoc; cbn; repeat split; reflexivity. }
  destruct Hrun as (Hit & Htr & Hst & Hpid & Hss & Hsd & Hck).
  split; [rewrite Hit; reflexivity|].
  repeat (split; [assumption|]).
  intros k m. rewrite Htr.
  change (trace w ++ [SetMotors 0 0 0 0; Sleep (1 # 10);
            if (0 <? _search_dir w)%Z
            then SetMotors (clamp (right_angle_turn_speed (_engines w)) 0 100)
                   (- clamp (right_angle_turn_speed (_engines w)) 0 100)
                   (clamp (right_angle_turn_speed (_engines w)) 0 100)
                   (- clamp (right_angle_turn_speed (_engines w)) 0 100)
            else SetMotors (- clamp (right_angle_turn_speed (_engines w)) 0 100)
                   (clamp (right_angle_turn_speed (_engines w)) 0 100)
                   (- clamp (right_angle_turn_speed (_engines w)) 0 100)
                   (clamp (right_angle_turn_speed (_engines w)) 0 100);
            Sleep (right_angle_turn_time (_engines w)); SetMotors 0 0 0 0])
    with (trace w ++ ([SetMotors 0 0 0 0; Sleep (1 # 10);
            if (0 <? _search_dir w)%Z
            then SetMotors (clamp (right_angle_turn_speed (_engines w)) 0 100)
                   (- clamp (right_angle_turn_speed (_engines w)) 0 100)
                   (clamp (right_angle_turn_speed (_engines w)) 0 100)
                   (- clamp (right_angle_turn_speed (_engines w)) 0 100)
            else SetMotors (- clamp (right_angle_turn_speed (_engines w)) 0 100)
                   (clamp (right_angle_turn_speed (_engines w)) 0 100)
                   (- clamp (right_angle_turn_speed (_engines w)) 0 100)
                   (clamp (right_angle_turn_speed (_engines w)) 0 100);
            Sleep (right_angle_turn_time (_engines w))] ++ SetMotors 0 0 0 0 :: [])).
  rewrite app_assoc. apply (replay_ends_stopped k m _ []). constructor.
Qed.

Lemma right_angle_maneuver_witness :
  takes_right_angle (robot []) sharp_turn_reading /\
  _pid (fst (iteration sharp_turn_reading (robot [])))
  = PID.reset (_pid (robot [])).
Proof.
  assert (H : takes_right_angle (robot []) sharp_turn_reading) by reflexivity.
  split; [exact H|].
  assert (Ht : 0 <= right_angle_turn_time (_engines (robot [])))
    by (unfold Qle; simpl; lia).
  destruct (right_angle_maneuver (robot []) sharp_turn_reading H eq_refl Ht)
    as (_ & _ & _ & Hpid & _).
  exact Hpid.
Defined.

Lemma timeout_effects w r t0 :
  seen_lost r = true -> seen_right_angle r = false ->
  _search_start w = Some t0 -> _search_time w < clock w - t0 ->
  faults w = [] ->
  let w' := fst (iteration r w) in
  iteration r w = (w', Ok tt) /\
  _running w' = _running w /\ faults w' = [] /\
  mode (_state w') = stopped /\
  _search_start w' = Some t0 /\ _search_time w' = _search_time w /\
  clock w' = clock w + (1 # 2) /\
  trace w' = trace w ++ [SetMotors 0 0 0 0; Sleep (1 # 2)].
Proof.
  intros Hlost Hra Hstart Hlate Hfl. apply Qltb_lt in Hlate.
  run_robot. cbn. rewrite Hra. cbn. rewrite Hlost. rewrite ?Hstart. cbn.
  rewrite ?Hstart, Hlate, Hfl. cbn. rewrite <- app_assoc.
  repeat split; try reflexivity; assumption.
Qed.

(** X17.  Once the search has timed out the robot stays put for as long as
    the line stays lost: every further iteration only repeats the stop
    command and the 0.5 s pause, keeps mode "stopped", and leaves every
    wheel coasting. *)
Theorem stopped_until_line_returns :
  forall inputs w t0,
    _running w = true -> faults w = [] ->
    mode (_state w) = stopped ->
    _search_start w = Some t0 -> _search_time w < clock w - t0 ->
    Forall (fun i : Q * Reading =>
              0 <= fst i /\ seen_lost (snd i) = true /\
              seen_right_angle (snd i) = false) inputs ->
    let w' := fst (_loop inputs w) in
    snd (_loop inputs w) = Ok tt /\
    mode (_state w') = stopped /\
    trace w' =
      trace w ++
      concat (map (fun _ => [SetMotors 0 0 0 0; Sleep (1 # 2)]) inputs) /\
    (inputs <> [] ->
     forall k m,
       let m' := replay k m (trace w') in
       coasting (front_left m') /\ coasting (front_right m') /\
       coasting (rear_left m') /\ coasting (rear_right m')).
Proof.
  intros inputs w t0 Hrun Hfl Hmode Hstart Hlate Hall. cbv zeta.
  assert (Hmain :
    snd (_loop inputs w) = Ok tt /\
    mode (_state (fst (_loop inputs w))) = stopped /\
    trace (fst (_loop inputs w)) =
      trace w ++
      concat (map (fun _ => [SetMotors 0 0 0 0; Sleep (1 # 2)]) inputs)).
  { revert w Hrun Hfl Hmode Hstart Hlate.
    induction Hall as [|[wait r] inputs (Hw & Hl & Hr) _ IH];
      intros w Hrun Hfl Hmode Hstart Hlate.
    - cbn. rewrite app_nil_r. auto.
    - cbn [_loop]. rewrite Hrun. cbn [fst snd] in *.
      destruct (timeout_effects (advance wait w) r t0 Hl Hr Hstart
                  ltac:(cbn; lra) Hfl)
        as (Hit & Hrun' & Hfl' & Hmode' & Hstart' & Htime' & Hck' & Htr').
      cbv zeta in *. rewrite (bind_ok _ _ _ _ _ Hit).
      set (wn := fst (iteration r (advance wait w))) in *.
      assert (R : _running wn = true) by (rewrite Hrun'; exact Hrun).
      assert (L : _search_time wn < clock wn - t0)
        by (rewrite Htime', Hck'; cbn; lra).
      destruct (IH wn R Hfl' Hmode' Hstart' L) as (H1 & H2 & H3).
      split; [exact H1|]. split; [exact H2|].
      rewrite H3, Htr'. cbn. rewrite <- !app_assoc. reflexivity. }
  destruct Hmain as (H1 & H2 & H3).
  split; [exact H1|]. split; [exact H2|]. split; [exact H3|].
  intros Hne k m. rewrite H3.
  destruct (exists_last Hne) as (pre & [wait r] & ->).
  rewrite map_app, concat_app. cbn [map concat app].
  rewrite app_assoc.
  apply (replay_ends_stopped k m _ [Sleep (1 # 2)]).
  constructor; [eexists; reflexivity | constructor].
Qed.

Lemma stopped_until_line_returns_witness :
  let w := fst (_loop [(0, lost_reading); (21 # 10, lost_reading)] (robot [])) in
  mode (_state
          (fst (_loop [(1, lost_reading); (5, lost_reading)] w))) = stopped.
Proof.
  cbv zeta.
  refine (proj1 (proj2 (stopped_until_line_returns
            [(1, lost_reading); (5, lost_reading)]
            (fst (_loop [(0, lost_reading); (21 # 10, lost_reading)] (robot [])))
            0 _ _ _ _ _ _))).
  - reflexivity.
  - reflexivity.
  - reflexivity.
  - reflexivity.
  - reflexivity.
  - repeat constructor; unfold Qle; simpl; lia.
Defined.

Lemma consumes_pure {A} (m : M A) w a :
  turn_time_ok w ->
  m w = (fst (m w), Ok a) ->
  faults (fst (m w)) = faults w -> _engines (fst (m w)) = _engines w ->
  consumes m w.
Proof.
  intros Hw Hm Hf He. unfold consumes, turn_time_ok. rewrite He.
  split; [exact Hw|]. rewrite Hm. exists []. rewrite Hf. reflexivity.
Qed.

Lemma consumes_bind {A B} (m : M A) (k : A -> M B) w :
  consumes m w ->
  (forall w1 a, m w = (w1, Ok a) -> turn_time_ok w1 -> consumes (k a) w1) ->
  consumes (bind m k) w.
Proof.
  intros [Ht Hm] Hk. unfold consumes, bind in *.
  destruct (m w) as [w1 [a|]] eqn:E; cbn [fst] in *.
  - destruct (Hk w1 a eq_refl Ht) as [Ht' Hk']. split; [exact Ht'|].
    destruct Hm as [p1 H1].
    destruct (k a w1) as [w2 [b|]]; destruct Hk' as [p2 H2];
      exists (p1 ++ p2); rewrite H1, H2, <- app_assoc; reflexivity.
  - split; assumption.
Qed.

Lemma consumes_set_motors a b c d w :
  turn_time_ok w -> consumes (Robot.set_motors a b c d) w.
Proof.
  intro Hw. unfold consumes, Robot.set_motors.
  destruct (faults w) as [|[] fs]; cbn; (split; [exact Hw|]).
  - exists []. reflexivity.
  - exists []. reflexivity.
  - exists [false]. reflexivity.
Qed.

Lemma consumes_sleep s w :
  turn_time_ok w -> 0 <= s -> consumes (sleep s) w.
Proof.
  intros Hw Hs. unfold consumes, sleep. apply Qltb_ge in Hs. rewrite Hs. cbn.
  split; [exact Hw|]. exists []. reflexivity.
Qed.

Lemma get_inv {A} (f : World -> A) w w1 a :
  get f w = (w1, Ok a) -> w1 = w /\ a = f w.
Proof. unfold get. intro H. injection H as <- <-. split; reflexivity. Qed.

Ltac consumes :=
  repeat first
    [ apply consumes_set_motors; assumption
    | apply consumes_sleep;
        [assumption | first [assumption | unfold Qle; simpl; lia]]
    | apply consumes_bind;
        [|let w1 := fresh "w" in let a := fresh "a" in
          let H := fresh "Hrun" in let Ht := fresh "Ht" in
          intros w1 a H Ht;
          try (apply get_inv in H; destruct H as [-> ->])]
    | match goal with
      | |- consumes (if ?b then _ else _) _ => destruct b
      | |- consumes (match ?x with _ => _ end) _ => destruct x
      end
    | eapply consumes_pure; [assumption | reflexivity | reflexivity | reflexivity] ].

Lemma consumes_branch r w : turn_time_ok w -> consumes (branch r) w.
Proof.
  intro Hw.
  unfold branch, _handle_right_angle, _handle_search, _handle_follow,
    right_angle_left, right_angle_right, turn_left, turn_right, curve,
    set_speed, stop, pid_reset, pid_compute, monotonic.
  consumes.
Qed.

Lemma isolated_suffix pre fs : isolated (pre ++ fs) = true -> isolated fs = true.
Proof.
  induction pre as [|b pre IH]; [auto|].
  cbn [app isolated]. destruct b; [destruct (pre ++ fs) as [|[] t] eqn:E|];
    try discriminate; intro H; apply IH; rewrite ?E; exact H.
Qed.

Lemma isolated_after_fault pre fs :
  isolated (pre ++ true :: fs) = true ->
  isolated fs = true /\ hd false fs = false.
Proof.
  intro H. apply isolated_suffix in H. cbn [isolated] in H.
  destruct fs as [|[] t]; [split; reflexivity | discriminate |].
  split; [exact H | reflexivity].
Qed.

Lemma iteration_absorbs_isolated r w :
  turn_time_ok w -> isolated (faults w) = true ->
  snd (iteration r w) = Ok tt /\
  turn_time_ok (fst (iteration r w)) /\
  isolated (faults (fst (iteration r w))) = true.
Proof.
  intros Hw Hiso. unfold iteration, try_except.
  destruct (consumes_branch r w Hw) as [Ht Hc].
  destruct (branch r w) as [w1 [[]|]]; cbn [fst] in Ht.
  - destruct Hc as [pre Hpre]. rewrite Hpre in Hiso.
    split; [reflexivity|]. split; [exact Ht|].
    exact (isolated_suffix _ _ Hiso).
  - destruct Hc as [pre Hpre]. rewrite Hpre in Hiso.
    destruct (isolated_after_fault _ _ Hiso) as [Hiso1 Hhd].
    unfold turn_time_ok in *.
    unfold on_exception, stop, Robot.set_motors, sleep, bind.
    destruct (faults w1) as [|[] fs]; cbn in *; try discriminate;
      repeat split; try reflexivity; assumption.
Qed.

(** X18.  Isolated actuator failures never end the control thread: if the
    configured right-angle turn time is not negative and the fault schedule
    never refuses two consecutive wheel commands, [_loop] completes every
    iteration it is given without letting an exception escape, whatever the
    readings. *)
Theorem loop_absorbs_isolated_faults :
  forall inputs w,
    0 <= right_angle_turn_time (_engines w) ->
    isolated (faults w) = true ->
    snd (_loop inputs w) = Ok tt /\
    isolated (faults (fst (_loop inputs w))) = true.
Proof.
  induction inputs as [|[wait r] inputs IH]; intros w Hw Hiso.
  - split; [reflexivity | exact Hiso].
  - cbn [_loop]. destruct (_running w); [|split; [reflexivity | exact Hiso]].
    destruct (iteration_absorbs_isolated r (advance wait w) Hw Hiso)
      as (Hok & Hw' & Hiso').
    unfold bind. destruct (iteration r (advance wait w)) as [w1 res].
    cbn [fst snd] in *. rewrite Hok. apply IH; assumption.
Qed.

Lemma loop_absorbs_isolated_faults_witness :
  0 <= right_angle_turn_time (_engines (robot [true; false; false; true])) /\
  snd (_loop [(0, lost_reading); (0, found_reading); (0, sharp_turn_reading)]
             (robot [true; false; false; true]))
  = Ok tt.
Proof.
  assert (H : 0 <= right_angle_turn_time
                     (_engines (robot [true; false; false; true])))
    by (unfold Qle; simpl; lia).
  split; [exact H|].
  exact (proj1 (loop_absorbs_isolated_faults
                  [(0, lost_reading); (0, found_reading); (0, sharp_turn_reading)]
                  (robot [true; false; false; true]) H eq_refl)).
Defined.

End SupervisorExtra.

(** ** Comment stripping in the configuration reader *)

Section CFGFacts.
Import CFGReader.
Variable isspace : N -> bool.

Lemma is_prefix_refl s : is_prefix s s.
Proof. exists []. rewrite app_nil_r. reflexivity. Qed.

Lemma is_prefix_trans a b c : is_prefix a b -> is_prefix b c -> is_prefix a c.
Proof.
  intros [r1 ->] [r2 ->]. exists (r1 ++ r2). rewrite app_assoc. reflexivity.
Qed.

Lemma firstn_is_prefix n (s : str) : is_prefix (firstn n s) s.
Proof. exists (skipn n s). symmetry. apply firstn_skipn. Qed.

Lemma strip_marker_prefix s m : is_prefix (strip_marker isspace s m) s.
Proof.
  unfold strip_marker. destruct (find m s) as [pos|]; [|apply is_prefix_refl].
  destruct (str_eqb m slashes && _); [apply is_prefix_refl | apply firstn_is_prefix].
Qed.

Lemma starts_with_prefix m p s :
  is_prefix p s -> starts_with m p = true -> starts_with m s = true.
Proof.
  revert p s. induction m as [|x m IH]; intros p s [r ->] H; [reflexivity|].
  destruct p as [|y p]; [discriminate|]. cbn in *.
  apply andb_true_iff in H. destruct H as [H1 H2]. rewrite H1. cbn.
  apply (IH p); [exists r; reflexivity | exact H2].
Qed.

Lemma find_none_prefix m p s :
  is_prefix p s -> find m s = None -> find m p = None.
Proof.
  revert s. induction p as [|y p IH]; intros s Hp Hs.
  - cbn. destruct m as [|x m]; [|reflexivity].
    destruct s; cbn in Hs; discriminate.
  - destruct Hp as [r ->]. cbn [app find] in *.
    destruct (starts_with m (y :: p ++ r)) eqn:E; [discriminate|].
    destruct (starts_with m (y :: p)) eqn:E'.
    + apply (starts_with_prefix m (y :: p) (y :: p ++ r)) in E';
        [congruence | exists r; reflexivity].
    + destruct (find m (p ++ r)) eqn:F; [discriminate|].
      rewrite (IH (p ++ r)); [reflexivity | exists r; reflexivity | exact F].
Qed.

Lemma find_firstn_none m s pos :
  find m s = Some pos -> m <> [] -> find m (firstn pos s) = None.
Proof.
  revert pos. induction s as [|y s IH]; intros pos H Hm.
  - cbn in H. destruct (starts_with m []) eqn:E; [|discriminate].
    destruct m; [congruence | discriminate].
  - cbn [find] in H. destruct (starts_with m (y :: s)) eqn:E.
    + injection H as <-. cbn. destruct m; [congruence | reflexivity].
    + destruct (find m s) as [k|] eqn:F; [|discriminate].
      cbn in H. injection H as <-. cbn [firstn find].
      destruct (starts_with m (y :: firstn k s)) eqn:E'.
      * apply (starts_with_prefix m _ (y :: s)) in E'; [congruence|].
        destruct (firstn_is_prefix k s) as [r Hr]. exists r. cbn. rewrite <- Hr. reflexivity.
      * rewrite (IH k eq_refl Hm). reflexivity.
Qed.

Lemma strip_marker_absent s m : find m s = None -> strip_marker isspace s m = s.
Proof. intro H. unfold strip_marker. rewrite H. reflexivity. Qed.

Lemma find_char_none c s : find [c] s = None <-> ~ In c s.
Proof.
  induction s as [|y s IH]; cbn.
  - split; [intros _ [] | reflexivity].
  - destruct (N.eqb_spec c y) as [->|Hne]; cbn.
    + split; [discriminate | intro H; exfalso; apply H; left; reflexivity].
    + destruct (find [c] s) as [k|]; cbn.
      * split; [discriminate|]. intro H. exfalso.
        assert (Hs : ~ In c s) by (intro; apply H; right; assumption).
        apply IH in Hs. discriminate.
      * split; [|reflexivity]. intros _ [E | Hin]; [congruence|].
        apply (proj1 IH eq_refl Hin).
Qed.

Lemma is_prefix_In p s c : is_prefix p s -> In c p -> In c s.
Proof. intros [r ->] H. apply in_or_app. left. exact H. Qed.

Lemma strip_char_removes s c :
  [c] <> slashes -> ~ In c (strip_marker isspace s [c]).
Proof.
  intro Hne. unfold strip_marker.
  destruct (find [c] s) as [pos|] eqn:F.
  - assert (E : str_eqb [c] slashes = false).
    { cbn. destruct (c =? 47)%N; reflexivity. }
    rewrite E. cbn [andb].
    apply find_char_none. apply (find_firstn_none [c] s pos F). discriminate.
  - apply find_char_none. exact F.
Qed.

Lemma strip_marker_idempotent s m :
  m <> [] ->
  strip_marker isspace (strip_marker isspace s m) m = strip_marker isspace s m.
Proof.
  intro Hm.
  destruct (find m s) as [pos|] eqn:F.
  - assert (H : strip_marker isspace s m = s \/
                strip_marker isspace s m = firstn pos s).
    { unfold strip_marker. rewrite F.
      destruct (str_eqb m slashes && _); auto. }
    destruct H as [H | H]; rewrite H.
    + exact H.
    + apply strip_marker_absent. apply find_firstn_none; assumption.
  - rewrite (strip_marker_absent s m F). apply strip_marker_absent. exact F.
Qed.

(** X19.  Stripping inline comments returns a prefix of the line that
    contains neither [;] nor [#]; it leaves a line without [;], [#] and
    [//] untouched, and stripping twice changes nothing more. *)
Theorem remove_inline_comments_prefix :
  forall s,
    let r := _remove_inline_comments isspace s in
    is_prefix r s /\
    ~ In 59%N r /\ ~ In 35%N r /\
    _remove_inline_comments isspace r = r /\
    (find semicolon s = None -> find hash s = None ->
     find slashes s = None -> r = s).
Proof.
  intro s. cbv zeta. unfold _remove_inline_comments. cbn [fold_left].
  set (s1 := strip_marker isspace s semicolon).
  set (s2 := strip_marker isspace s1 hash).
  set (r := strip_marker isspace s2 slashes).
  assert (P1 : is_prefix s1 s) by apply strip_marker_prefix.
  assert (P2 : is_prefix s2 s1) by apply strip_marker_prefix.
  assert (P3 : is_prefix r s2) by apply strip_marker_prefix.
  assert (N1 : ~ In 59%N s1) by (apply strip_char_removes; discriminate).
  assert (N2 : ~ In 35%N s2) by (apply strip_char_removes; discriminate).
  assert (Hsemi : ~ In 59%N r).
  { intro H. apply N1. apply (is_prefix_In s2 s1); [exact P2|].
    apply (is_prefix_In r s2); assumption. }
  assert (Hhash : ~ In 35%N r).
  { intro H. apply N2. apply (is_prefix_In r s2); assumption. }
  split; [exact (is_prefix_trans _ _ _ P3 (is_prefix_trans _ _ _ P2 P1))|].
  split; [exact Hsemi|]. split; [exact Hhash|]. split.
  - rewrite (strip_marker_absent r semicolon)
      by (apply find_char_none; exact Hsemi).
    rewrite (strip_marker_absent r hash)
      by (apply find_char_none; exact Hhash).
    apply strip_marker_idempotent. discriminate.
  - intros F1 F2 F3. subst r s2 s1.
    rewrite (strip_marker_absent s semicolon F1).
    rewrite (strip_marker_absent s hash F2).
    apply strip_marker_absent. exact F3.
Qed.

End CFGFacts.

Lemma remove_inline_comments_prefix_witness :
  CFGReader.find CFGReader.semicolon [107; 61; 49]%N = None /\
  CFGReader.find CFGReader.hash [107; 61; 49]%N = None /\
  CFGReader.find CFGReader.slashes [107; 61; 49]%N = None /\
  CFGReader._remove_inline_comments (fun c => N.eqb c 32) [107; 61; 49]%N
  = [107; 61; 49]%N.
Proof.
  repeat (split; [reflexivity|]).
  exact (proj2 (proj2 (proj2 (proj2
           (remove_inline_comments_prefix (fun c => N.eqb c 32)
              [107; 61; 49]%N))))
           eq_refl eq_refl eq_refl).
Defined.

(** The line [k=1 #x] loses its comment and keeps the blank before it. *)
Example comment_after_hash_removed :
  CFGReader._remove_inline_comments (fun c => N.eqb c 32)
    [107; 61; 49; 32; 35; 120]%N = [107; 61; 49; 32]%N.
Proof. reflexivity. Qed.
